(** * A shallow embedding of the MIDI drum kit's performance engine

    The development follows the TypeScript sources:
    - [Audio]     : utils/audio.ts   (voices, registry, [triggerSound]);
    - [Kit]       : components/DrumKit.tsx (recorder, playback, mappings);
    - [StepSeq]   : components/Sequencer.tsx (the sixteen-step loop).

    Numbers that the program treats as JavaScript numbers are rationals
    ([Q]) when they carry fractions (velocities, gains, times in seconds)
    and integers ([Z]) when the program only ever produces integers (note
    numbers, millisecond clock readings).  Calls into Tone.js are recorded
    as commands, so that "what gets triggered when" can be read off the
    result of a function. *)

From Stdlib Require Import ZArith QArith Qminmax String Ascii List Lia.
From stdpp Require Import gmap strings list fin_maps pretty.

Local Close Scope Q_scope.
Local Open Scope Z_scope.
Local Open Scope string_scope.

(** Outcome of a JavaScript call that may throw into its caller.  The
    commands issued before the exception are kept in both cases. *)
Inductive Outcome (A : Type) : Type :=
| Returned (cmds : list A)
| Threw (cmds : list A).
Arguments Returned {A} cmds.
Arguments Threw {A} cmds.

Definition commands {A} (o : Outcome A) : list A :=
  match o with Returned c => c | Threw c => c end.

Definition returns {A} (o : Outcome A) : bool :=
  match o with Returned _ => true | Threw _ => false end.

Module Audio.

(** ** Instrument types (the closed union [InstrumentType]) *)

Inductive InstrumentType : Type :=
| kick | kick_808 | snare | snare_808 | rimshot
| hihat_closed | hihat_open | tom | crash | splash | china | ride
| cowbell | clap | shaker | tambourine | conga_high | conga_low
| custom.

(** The string tag of an instrument, as written in the union type. *)
Definition instrument_name (t : InstrumentType) : string :=
  match t with
  | kick => "kick" | kick_808 => "kick_808" | snare => "snare"
  | snare_808 => "snare_808" | rimshot => "rimshot"
  | hihat_closed => "hihat_closed" | hihat_open => "hihat_open"
  | tom => "tom" | crash => "crash" | splash => "splash"
  | china => "china" | ride => "ride" | cowbell => "cowbell"
  | clap => "clap" | shaker => "shaker" | tambourine => "tambourine"
  | conga_high => "conga_high" | conga_low => "conga_low"
  | custom => "custom"
  end.

(** ** Voices *)

(** The module-level synthesiser variables. *)
Inductive SynthName : Type :=
| tomSynth | crashSynth | rideSynth | chinaSynth | splashSynth
| woodblockSynth | shakerSynth | congaSynth | midiSynth.

(** A pitch name together with a transposition in semitones:
    [Tone.Frequency(name).transpose(n).toNote()], kept symbolic.  A
    transposition of [0] is the untransposed name. *)
Record NoteRef : Type := mkNote { note_base : string; note_semis : Z }.

(** One player of the default kit ([Tone.Players]).  [kp_loaded] is the
    state of its buffer; Tone refuses to start a player whose buffer is
    not loaded by throwing. *)
Record KitPlayer : Type := mkKitPlayer { kp_loaded : bool; kp_started : bool }.

(** A custom [Tone.Player]; [pl_id] is the identity of the object. *)
Record Player : Type := mkPlayer { pl_id : nat; pl_url : string; pl_loaded : bool }.

(** A parsed MIDI file: tracks of notes. *)
Record MidiNote : Type := mkMidiNote
  { mn_name : string; mn_duration : Q; mn_time : Q; mn_velocity : Q }.

Record Midi : Type := mkMidi { tracks : list (list MidiNote) }.

(** ** Module state *)

Record AudioState : Type := mkAudio
  { isInitialized : bool;
    defaultKit : option (gmap string KitPlayer);   (* [None]: still undefined *)
    synths : SynthName -> bool;                    (* is the variable defined *)
    customPlayers : gmap string Player;
    customMidi : gmap string Midi;
    panners : gmap string Q;                       (* pan value per panner *)
    reverb : option Q;                             (* wet value *)
    distortion : option Q;
    mainGain : option Q;
    swing : Q;
    disposed : gset nat;                           (* disposed Player objects *)
    next_player : nat }.

(** The state before [initAudio] has run: nothing is defined, both
    registries are empty. *)
Definition initial : AudioState :=
  {| isInitialized := false; defaultKit := None; synths := fun _ => false;
     customPlayers := ∅; customMidi := ∅; panners := ∅;
     reverb := None; distortion := None; mainGain := None; swing := 0%Q;
     disposed := ∅; next_player := 0%nat |}.

(** The state once [initAudio] has completed: the effect chain, the seven
    kit players, the eight synthesisers with their panners, and the MIDI
    synth exist.  [loaded] says whether the kit's buffers have arrived. *)
Definition kit_names : list string :=
  ["kick"; "kick_808"; "snare"; "snare_808"; "hihat_closed"; "hihat_open"; "clap"].

Definition panner_names : list string :=
  ["tom"; "crash"; "splash"; "china"; "ride"; "cowbell"; "shaker"; "conga"].

Definition initAudio_done (loaded : bool) (st : AudioState) : AudioState :=
  if isInitialized st then st else
  {| isInitialized := true;
     defaultKit := Some (list_to_map (map (fun n => (n, mkKitPlayer loaded false)) kit_names));
     synths := fun _ => true;
     customPlayers := customPlayers st; customMidi := customMidi st;
     panners := list_to_map (map (fun n => (n, 0%Q)) panner_names);
     reverb := Some 1%Q; distortion := Some 0%Q; mainGain := Some (8 # 10)%Q;
     swing := swing st; disposed := disposed st; next_player := next_player st |}.

(** ** Commands sent to Tone.js *)

Inductive Target : Type :=
| KitTarget (name : string)
| CustomTarget (key : string).

Inductive AudioCmd : Type :=
| CmdInitAudio
| CmdPlayerRate (p : Target) (semitones : Z)
| CmdPlayerStop (p : Target) (time : option Q)
| CmdPlayerFadeOut (p : Target) (fade : Q)
| CmdPlayerStart (p : Target) (time : option Q) (offset : Q) (duration : option Q)
| CmdPlayerVolume (p : Target) (gain : Q)
| CmdSynth (s : SynthName) (note : option NoteRef) (duration : string)
           (time : option Q) (velocity : Q)
| CmdMidiNote (note : NoteRef) (duration : Q) (time : Q) (velocity : Q)
| CmdWarn (msg : string).

(** ** Parameter updates *)

(** The property names every plain object inherits from
    [Object.prototype]. *)
Definition object_prototype_names : list string :=
  ["constructor"; "__proto__"; "hasOwnProperty"; "isPrototypeOf";
   "propertyIsEnumerable"; "toLocaleString"; "toString"; "valueOf";
   "__defineGetter__"; "__defineSetter__"; "__lookupGetter__"; "__lookupSetter__"].

Definition inherited (name : string) : bool :=
  existsb (String.eqb name) object_prototype_names.

(** [updatePan]: [if (panners[name]) panners[name].pan.value = value].
    [panners] is a plain object: a name with a panner of its own gets the
    value; a name the object inherits from [Object.prototype] reads as a
    function (or the prototype itself), which is truthy and has no [pan],
    so the assignment throws a TypeError ([None]); any other name reads
    as [undefined] and nothing happens. *)
Definition updatePan (name : string) (value : Q) (st : AudioState)
    : option AudioState :=
  match panners st !! name with
  | Some _ =>
      Some
      {| isInitialized := isInitialized st; defaultKit := defaultKit st;
         synths := synths st; customPlayers := customPlayers st;
         customMidi := customMidi st;
         panners := <[name := value]> (panners st);
         reverb := reverb st; distortion := distortion st;
         mainGain := mainGain st; swing := swing st;
         disposed := disposed st; next_player := next_player st |}
  | None => if inherited name then None else Some st
  end.

(** [Math.min(Math.max(x, lo), hi)] *)
Definition clamp (lo hi x : Q) : Q := Qmin (Qmax x lo) hi.

Definition gtb (x y : Q) : bool := negb (Qle_bool x y).

(** Replace the registry part of the state. *)
Definition with_registry (st : AudioState) (players : gmap string Player)
    (midi : gmap string Midi) (disp : gset nat) (next : nat) : AudioState :=
  {| isInitialized := isInitialized st; defaultKit := defaultKit st;
     synths := synths st; customPlayers := players; customMidi := midi;
     panners := panners st; reverb := reverb st; distortion := distortion st;
     mainGain := mainGain st; swing := swing st;
     disposed := disp; next_player := next |}.





(** ** The registry of custom sounds: [loadUserSample] *)

(** [s.toLowerCase()], on the ASCII letters. *)
Definition lower_ascii (c : ascii) : ascii :=
  let n := nat_of_ascii c in
  if (65 <=? n)%nat && (n <=? 90)%nat then ascii_of_nat (n + 32) else c.

Fixpoint toLowerCase (s : string) : string :=
  match s with
  | EmptyString => EmptyString
  | String c s' => String (lower_ascii c) (toLowerCase s')
  end.

(** [s.split('.').pop()]: what follows the last dot, or all of [s]. *)
Fixpoint after_last_dot (s acc : string) : string :=
  match s with
  | EmptyString => acc
  | String c s' =>
      if Ascii.eqb c "."%char then after_last_dot s' EmptyString
      else after_last_dot s' (acc ++ String c EmptyString)
  end.

Definition extension (fileUrl : string) : string :=
  toLowerCase (after_last_dot fileUrl EmptyString).

(** [s.replace(/#/g, '%23')] *)
Fixpoint escape_hash (s : string) : string :=
  match s with
  | EmptyString => EmptyString
  | String c s' =>
      if Ascii.eqb c "#"%char then "%23" ++ escape_hash s'
      else String c (escape_hash s')
  end.

(** What the outside world answers to a load: the browser's [encodeURI],
    the result of fetching and parsing a MIDI file ([None]: the fetch or
    the parser failed), and whether an audio buffer decodes. *)
Record LoadEnv : Type := mkEnv
  { encodeURI : string -> string;
    fetch_midi : string -> option Midi;
    load_audio : string -> bool }.

Definition cleanUrl (env : LoadEnv) (fileUrl : string) : string :=
  if String.prefix "http" fileUrl then fileUrl
  else escape_hash (encodeURI env fileUrl).

(** Where an asynchronous load is suspended. *)
Inductive Pending : Type :=
| Finished                                   (* returned or failed already *)
| AwaitMidi (key url : string)               (* [await fetch(cleanUrl)] *)
| AwaitAudio (key url : string) (player : nat) (* [await player.load(cleanUrl)] *).

(** The synchronous first part of [loadUserSample]: release what the key
    held, classify by extension, and for audio create the new player.
    (The fire-and-forget [initAudio()] of an uninitialised module assigns
    nothing before its first [await], so it does not show here.) *)
Definition load_begin (env : LoadEnv) (noteId : Z) (fileUrl : string)
    (st : AudioState) : AudioState * Pending :=
  let key := pretty noteId in
  let ext := extension fileUrl in
  let disp := match customPlayers st !! key with
              | Some old => {[pl_id old]} ∪ disposed st
              | None => disposed st
              end in
  let st1 := with_registry st (delete key (customPlayers st))
                              (delete key (customMidi st)) disp (next_player st) in
  if String.eqb ext "prt_omn" then (st1, Finished)
  else if String.eqb ext "mid" then (st1, AwaitMidi key (cleanUrl env fileUrl))
  else
    let st2 := with_registry st1 (customPlayers st1) (customMidi st1)
                 (disposed st1) (S (next_player st1)) in
    match reverb st with
    | None => (st2, Finished)                (* [player.connect(reverb)] throws *)
    | Some _ => (st2, AwaitAudio key (cleanUrl env fileUrl) (next_player st1))
    end.

(** The continuation after the [await]: store what arrived, if it did. *)
Definition load_finish (env : LoadEnv) (p : Pending) (st : AudioState) : AudioState :=
  match p with
  | Finished => st
  | AwaitMidi key url =>
      match fetch_midi env url with
      | Some midi => with_registry st (customPlayers st) (<[key := midi]> (customMidi st))
                       (disposed st) (next_player st)
      | None => st
      end
  | AwaitAudio key url player =>
      if load_audio env url
      then with_registry st (<[key := mkPlayer player url true]> (customPlayers st))
             (customMidi st) (disposed st) (next_player st)
      else st
  end.

(** A load that runs from call to completion with nothing in between. *)
Definition loadUserSample (env : LoadEnv) (noteId : Z) (fileUrl : string)
    (st : AudioState) : AudioState :=
  let '(st1, p) := load_begin env noteId fileUrl st in
  load_finish env p st1.

(** The number of registry entries a pad has: a player, a pattern, or both. *)
Definition entries (st : AudioState) (noteId : Z) : nat :=
  ((match customPlayers st !! pretty noteId with Some _ => 1 | None => 0 end)
   + (match customMidi st !! pretty noteId with Some _ => 1 | None => 0 end))%nat.

(** A player object is live when it was created and not disposed. *)
Definition live (st : AudioState) (p : nat) : Prop :=
  (p < next_player st)%nat ∧ p ∉ disposed st.

(** What the synchronous part of a load releases. *)
Definition released (st : AudioState) (k : string) : gset nat :=
  match customPlayers st !! k with
  | Some old => {[pl_id old]} ∪ disposed st
  | None => disposed st
  end.

(** The three shapes the registry can have when a load has completed:
    the key is empty, it holds the new pattern, or it holds the new player. *)
Inductive loaded_as (st : AudioState) (k : string) (st' : AudioState) : Prop :=
| loaded_nothing next :
    (next = next_player st ∨ next = S (next_player st)) →
    st' = with_registry st (delete k (customPlayers st)) (delete k (customMidi st))
            (released st k) next →
    loaded_as st k st'
| loaded_midi m :
    st' = with_registry st (delete k (customPlayers st))
            (<[k := m]> (delete k (customMidi st))) (released st k) (next_player st) →
    loaded_as st k st'
| loaded_audio url :
    st' = with_registry st
            (<[k := mkPlayer (next_player st) url true]> (delete k (customPlayers st)))
            (delete k (customMidi st)) (released st k) (S (next_player st)) →
    loaded_as st k st'.

(** The registry holds only live players, and no player twice. *)
Record registry_ok (st : AudioState) : Prop := mkRegistryOk
  { disposed_allocated : ∀ p, p ∈ disposed st → (p < next_player st)%nat;
    stored_live : ∀ k pl, customPlayers st !! k = Some pl → live st (pl_id pl);
    stored_once : ∀ k k' pl pl',
        customPlayers st !! k = Some pl → customPlayers st !! k' = Some pl' →
        pl_id pl = pl_id pl' → k = k' }.

(** ** [triggerSound] *)

Record SoundParams : Type := mkParams
  { pitch : option Z;
    volume : option Q;
    pan : option Q;
    triggerNote : option Z;
    time : option Q }.

Definition no_params : SoundParams :=
  {| pitch := None; volume := None; pan := None; triggerNote := None; time := None |}.

(** A call [triggerSound(type, velocity, params)] as a value: the
    components produce these, [perform] below runs one. *)
Record Dispatch : Type := mkDispatch
  { d_type : InstrumentType; d_velocity : Q; d_params : SoundParams }.

(** [const vel = velocity > 1 ? Math.min(Math.max(velocity / 127, 0.1), 1) : velocity] *)
Definition normalizeVelocity (velocity : Q) : Q :=
  if gtb velocity 1 then clamp (1 # 10) 1 (velocity / 127)%Q else velocity.

(** [Math.max(vel * volMult, 0.001)] with [volMult] defaulting to 1. *)
Definition effectiveVel (velocity : Q) (params : SoundParams) : Q :=
  let volMult := match volume params with Some v => v | None => 1%Q end in
  Qmax (normalizeVelocity velocity * volMult)%Q (1 # 1000).

(** [params.pitch ? f(params.pitch) : base]; a pitch of [0] is falsy, and
    transposing by [0] is the base itself, so one field holds both. *)
Definition pitch_semis (params : SoundParams) : Z :=
  match pitch params with Some p => p | None => 0 end.

Definition transposed (base : string) (params : SoundParams) : NoteRef :=
  mkNote base (pitch_semis params).

(** A one-shot of the default kit.  The part inside [try] stops at the
    first throwing call; the exception is swallowed. *)
Definition kit_shot (kit : gmap string KitPlayer) (name : string)
    (fade : option Q) (dur : option Q) (velocity : Q) (params : SoundParams)
    : list AudioCmd :=
  match kit !! name with
  | None => []
  | Some p =>
      CmdPlayerRate (KitTarget name) (pitch_semis params)
      :: (if kp_started p then [CmdPlayerStop (KitTarget name) (time params)] else [])
      ++ match fade with Some f => [CmdPlayerFadeOut (KitTarget name) f] | None => [] end
      ++ (if kp_loaded p
          then [CmdPlayerStart (KitTarget name) (time params) 0 dur;
                CmdPlayerVolume (KitTarget name) (effectiveVel velocity params)]
          else [])
  end.

(** [defaultKit.has(name)] on an undefined [defaultKit] is a TypeError,
    outside of any [try]. *)
Definition with_kit (st : AudioState) (name : string)
    (fade : option Q) (dur : option Q) (velocity : Q) (params : SoundParams)
    : Outcome AudioCmd :=
  match defaultKit st with
  | None => Threw []
  | Some kit => Returned (kit_shot kit name fade dur velocity params)
  end.

(** [if (synth) synth.triggerAttackRelease(note, duration, time, velocity)] *)
Definition synth_shot (st : AudioState) (s : SynthName) (note : option NoteRef)
    (dur : string) (params : SoundParams) (vel : Q) : Outcome AudioCmd :=
  if synths st s then Returned [CmdSynth s note dur (time params) vel]
  else Returned [].

(** The notes of an imported pattern, re-triggered on the MIDI synth. *)
Definition midi_cmds (m : Midi) (now : Q) (velocity : Q) (params : SoundParams)
    : list AudioCmd :=
  flat_map (fun track =>
    map (fun n =>
      CmdMidiNote (transposed (mn_name n) params) (mn_duration n)
                  (now + mn_time n)%Q (mn_velocity n * normalizeVelocity velocity)%Q)
      track) (tracks m).

(** [case 'custom']: without a trigger note nothing happens; a stored
    pattern is played note by note (the first call on an undefined
    [midiSynth] throws); otherwise a stored player is started if its
    buffer is loaded and a warning is logged if it is not; a key with
    neither falls through to [break]. *)
Definition custom_shot (st : AudioState) (tone_now : Q) (velocity : Q)
    (params : SoundParams) : Outcome AudioCmd :=
  match triggerNote params with
  | None => Returned []
  | Some n =>
      let key := pretty n in
      match customMidi st !! key with
      | Some m =>
          let now := match time params with Some t => t | None => tone_now end in
          match midi_cmds m now velocity params with
          | [] => Returned []
          | cmds => if synths st midiSynth then Returned cmds else Threw []
          end
      | None =>
          match customPlayers st !! key with
          | Some player =>
              if pl_loaded player
              then Returned [CmdPlayerRate (CustomTarget key) (pitch_semis params);
                             CmdPlayerStart (CustomTarget key) (time params) 0 None;
                             CmdPlayerVolume (CustomTarget key) (effectiveVel velocity params)]
              else Returned [CmdWarn ("Custom sound for note " ++ key ++ " exists but is not loaded.")]
          | None => Returned []
          end
      end
  end.

(** The [switch (type)] of [triggerSound]. *)
Definition dispatch (st : AudioState) (tone_now : Q) (type : InstrumentType)
    (velocity : Q) (params : SoundParams) : Outcome AudioCmd :=
  let ev := effectiveVel velocity params in
  match type with
  | custom => custom_shot st tone_now velocity params
  | kick => with_kit st "kick" None None velocity params
  | kick_808 => with_kit st "kick_808" None None velocity params
  | snare => with_kit st "snare" None None velocity params
  | snare_808 => with_kit st "snare_808" None None velocity params
  | rimshot => synth_shot st woodblockSynth (Some (mkNote "E5" 0)) "32n" params ev
  | clap => with_kit st "clap" None None velocity params
  | hihat_closed => with_kit st "hihat_closed" (Some (5 # 100)%Q) (Some (1 # 10)%Q) velocity params
  | hihat_open => with_kit st "hihat_open" (Some 0%Q) None velocity params
  | tom => synth_shot st tomSynth (Some (transposed "C2" params)) "8n" params ev
  | crash => synth_shot st crashSynth (Some (mkNote "C4" 0)) "1n" params ev
  | splash => synth_shot st splashSynth (Some (mkNote "E4" 0)) "8n" params ev
  | china => synth_shot st chinaSynth (Some (mkNote "G4" 0)) "2n" params ev
  | ride => synth_shot st rideSynth (Some (mkNote "G4" 0)) "4n" params (ev * (8 # 10))%Q
  | cowbell => synth_shot st woodblockSynth (Some (transposed "G4" params)) "16n" params ev
  | shaker => synth_shot st shakerSynth None "16n" params (ev * (5 # 10))%Q
  | tambourine => synth_shot st shakerSynth None "32n" params (ev * (7 # 10))%Q
  | conga_high => synth_shot st congaSynth (Some (mkNote "E4" 0)) "8n" params ev
  | conga_low => synth_shot st congaSynth (Some (mkNote "C3" 0)) "8n" params ev
  end.

(** [triggerSound(type, velocity, params)]: the fire-and-forget
    [initAudio()] when the module is not initialised, then the switch. *)
Definition triggerSound (st : AudioState) (tone_now : Q) (type : InstrumentType)
    (velocity : Q) (params : SoundParams) : Outcome AudioCmd :=
  let pre := if isInitialized st then [] else [CmdInitAudio] in
  match dispatch st tone_now type velocity params with
  | Returned c => Returned (pre ++ c)
  | Threw c => Threw (pre ++ c)
  end.

Definition perform (st : AudioState) (tone_now : Q) (d : Dispatch) : Outcome AudioCmd :=
  triggerSound st tone_now (d_type d) (d_velocity d) (d_params d).

(** A command that makes a sound (as opposed to a log line or the
    request to initialise). *)
Definition audible (c : AudioCmd) : bool :=
  match c with
  | CmdPlayerStart _ _ _ _ | CmdSynth _ _ _ _ _ | CmdMidiNote _ _ _ _ => true
  | _ => false
  end.

End Audio.

Module Kit.

(** ** Data of the DrumKit component *)

Record MidiEvent : Type := mkEvent
  { ev_id : string; ev_note : Z; ev_velocity : Q; ev_timestamp : Z }.

Record Recording : Type := mkRecording
  { rec_id : Z; rec_name : string; rec_events : list MidiEvent;
    rec_duration : Z (* milliseconds *) }.

Record SoundMapping : Type := mkMapping
  { instrument : Audio.InstrumentType;
    pitch : Z;
    volume : option Q;
    pan : option Q }.

(** One entry of the array handed to [Tone.Part]. *)
Record PartEvent : Type := mkPartEvent
  { pe_time : Q; pe_note : Z; pe_velocity : Q }.

(** A [Tone.Part] object: the events it was built from, the transport
    time it was started at, and whether it has been disposed.
    [p_take] remembers the take whose playback created the object. *)
Record Part : Type := mkPart
  { p_events : list PartEvent; p_start : Q; p_take : Z; p_disposed : bool }.

(** The closure given to [Tone.Transport.scheduleOnce]: it captures
    [rec.id] and [part]; [cl_time] is the transport time it is due. *)
Record Cleanup : Type := mkCleanup { cl_time : Q; cl_take : Z; cl_part : nat }.

(** ** Component state

    [mappings] is what [mappingsRef.current] holds once the sync effect
    has run.  [parts] is the heap of Part objects, keyed by identity;
    [activeRecordingLoops] maps a take id to the identity of its part. *)
Record State : Type := mkState
  { isRecording : bool;
    isRecordingRef : bool;
    recordings : list Recording;
    currentRecordingRef : list MidiEvent;
    recordStartTimeRef : Z;
    mappings : gmap Z SoundMapping;
    activeRecordingLoops : gmap Z nat;
    parts : gmap nat Part;
    next_part : nat;
    transport_started : bool;
    scheduledOnce : list Cleanup }.

Definition initial : State :=
  {| isRecording := false; isRecordingRef := false; recordings := [];
     currentRecordingRef := []; recordStartTimeRef := 0;
     mappings := ∅;                       (* DEFAULT_MAPPING *)
     activeRecordingLoops := ∅; parts := ∅; next_part := 0%nat;
     transport_started := false; scheduledOnce := [] |}.

Definition with_recorder (st : State) (r rr : bool) (recs : list Recording)
    (buf : list MidiEvent) (start : Z) : State :=
  {| isRecording := r; isRecordingRef := rr; recordings := recs;
     currentRecordingRef := buf; recordStartTimeRef := start;
     mappings := mappings st; activeRecordingLoops := activeRecordingLoops st;
     parts := parts st; next_part := next_part st;
     transport_started := transport_started st;
     scheduledOnce := scheduledOnce st |}.

Definition with_mappings (st : State) (m : gmap Z SoundMapping) : State :=
  {| isRecording := isRecording st; isRecordingRef := isRecordingRef st;
     recordings := recordings st; currentRecordingRef := currentRecordingRef st;
     recordStartTimeRef := recordStartTimeRef st;
     mappings := m; activeRecordingLoops := activeRecordingLoops st;
     parts := parts st; next_part := next_part st;
     transport_started := transport_started st;
     scheduledOnce := scheduledOnce st |}.

Definition with_playback (st : State) (loops : gmap Z nat) (heap : gmap nat Part)
    (next : nat) (started : bool) (sched : list Cleanup) : State :=
  {| isRecording := isRecording st; isRecordingRef := isRecordingRef st;
     recordings := recordings st; currentRecordingRef := currentRecordingRef st;
     recordStartTimeRef := recordStartTimeRef st;
     mappings := mappings st; activeRecordingLoops := loops;
     parts := heap; next_part := next;
     transport_started := started; scheduledOnce := sched |}.

(** ** The input listener (the callback given to [addListener]) *)

(** The call made for a note under the current mappings: the mapped
    instrument, or the cowbell an octave up when there is no mapping. *)
Definition live_dispatch (st : State) (note : Z) (velocity : Q) : Audio.Dispatch :=
  match mappings st !! note with
  | Some mapping =>
      Audio.mkDispatch (instrument mapping) velocity
        {| Audio.pitch := Some (pitch mapping); Audio.triggerNote := Some note;
           Audio.volume := volume mapping; Audio.pan := pan mapping;
           Audio.time := None |}
  | None =>
      Audio.mkDispatch Audio.cowbell velocity
        {| Audio.pitch := Some 12; Audio.triggerNote := None;
           Audio.volume := None; Audio.pan := None; Audio.time := None |}
  end.

(** [now] is the reading of [Date.now()], [rnd] the random suffix of the
    event id.  While recording, the event is pushed with its timestamp
    made relative to the start of the recording. *)
Definition onNote (now : Z) (rnd : string) (note : Z) (velocity : Q)
    (st : State) : State * Audio.Dispatch :=
  let newEvent := mkEvent (pretty now ++ "-" ++ rnd) note velocity now in
  let st' :=
    if isRecordingRef st
    then with_recorder st (isRecording st) (isRecordingRef st) (recordings st)
           (currentRecordingRef st
              ++ [mkEvent (ev_id newEvent) note velocity (now - recordStartTimeRef st)])
           (recordStartTimeRef st)
    else st in
  (st', live_dispatch st note velocity).

(** A pad press as the listener handles it: the event is recorded if a
    recording is running, and the sound for the note is triggered. *)
Definition press (ast : Audio.AudioState) (tone_now : Q) (now : Z) (rnd : string)
    (note : Z) (velocity : Q) (st : State) : State * Outcome Audio.AudioCmd :=
  let '(st', d) := onNote now rnd note velocity st in
  (st', Audio.perform ast tone_now d).

(** One input event: the clock reading and random suffix the listener
    draws, and the note and velocity it is called with. *)
Record Input : Type := mkInput
  { in_now : Z; in_rnd : string; in_note : Z; in_velocity : Q }.

(** The listener run over a sequence of input events. *)
Fixpoint feed (inputs : list Input) (st : State) : State :=
  match inputs with
  | [] => st
  | i :: rest =>
      feed rest (onNote (in_now i) (in_rnd i) (in_note i) (in_velocity i) st).1
  end.

(** The event the recorder stores for an input, given the start time. *)
Definition relative (start : Z) (i : Input) : MidiEvent :=
  mkEvent (pretty (in_now i) ++ "-" ++ in_rnd i) (in_note i) (in_velocity i)
          (in_now i - start).

(** ** The recorder: [toggleRecording]

    [now] is the first reading of [Date.now()] in the call, [now2] the
    second one, which only the sealing of a take makes. *)
Definition toggleRecording (now now2 : Z) (st : State) : State :=
  if negb (isRecording st)
  then with_recorder st true true (recordings st) [] now
  else
    let newRec :=
      mkRecording now2
        ("Take " ++ pretty (Z.of_nat (length (recordings st)) + 1))
        (currentRecordingRef st)
        (now - recordStartTimeRef st) in
    with_recorder st false false
      (match currentRecordingRef st with
       | [] => recordings st
       | _ :: _ => newRec :: recordings st
       end)
      (currentRecordingRef st) (recordStartTimeRef st).

(** ** Playback *)

Definition dispose (p : nat) (heap : gmap nat Part) : gmap nat Part :=
  alter (fun part => mkPart (p_events part) (p_start part) (p_take part) true) p heap.

Definition partEvents (rec : Recording) : list PartEvent :=
  map (fun evt => mkPartEvent (inject_Z (ev_timestamp evt) / 1000)%Q
                              (ev_note evt) (ev_velocity evt))
      (rec_events rec).

(** [playBackRecording], from the point after the two [await]s.
    [seconds] is the reading of [Tone.Transport.seconds]. *)
Definition playBackRecording (seconds : Q) (rec : Recording) (st : State) : State :=
  match activeRecordingLoops st !! rec_id rec with
  | Some p =>
      with_playback st (delete (rec_id rec) (activeRecordingLoops st))
        (dispose p (parts st)) (next_part st) (transport_started st)
        (scheduledOnce st)
  | None =>
      let startOffset := (seconds + (1 # 10))%Q in
      let recordingDuration := (inject_Z (rec_duration rec) / 1000)%Q in
      let part := next_part st in
      with_playback st (<[rec_id rec := part]> (activeRecordingLoops st))
        (<[part := mkPart (partEvents rec) startOffset (rec_id rec) false]> (parts st))
        (S part) true
        (scheduledOnce st
           ++ [mkCleanup (startOffset + recordingDuration)%Q (rec_id rec) part])
  end.

(** The body of the scheduled cleanup callback. *)
Definition run_cleanup (c : Cleanup) (st : State) : State :=
  match activeRecordingLoops st !! cl_take c with
  | Some p =>
      if Nat.eqb p (cl_part c)
      then with_playback st (delete (cl_take c) (activeRecordingLoops st))
             (dispose (cl_part c) (parts st)) (next_part st)
             (transport_started st) (scheduledOnce st)
      else st
  | None => st
  end.

(** The transport fires the [i]-th pending one-shot callback and forgets it. *)
Definition fire_cleanup (i : nat) (st : State) : State :=
  match scheduledOnce st !! i with
  | Some c =>
      run_cleanup c
        (with_playback st (activeRecordingLoops st) (parts st) (next_part st)
           (transport_started st)
           (take i (scheduledOnce st) ++ drop (S i) (scheduledOnce st)))
  | None => st
  end.

Definition stopAllRecordings (st : State) : State :=
  with_playback st ∅
    (map_fold (fun _ p heap => dispose p heap) (parts st) (activeRecordingLoops st))
    (next_part st) (transport_started st) (scheduledOnce st).

Definition deleteRecording (id : Z) (st : State) : State :=
  let st' :=
    match activeRecordingLoops st !! id with
    | Some p =>
        with_playback st (delete id (activeRecordingLoops st)) (dispose p (parts st))
          (next_part st) (transport_started st) (scheduledOnce st)
    | None => st
    end in
  with_recorder st' (isRecording st') (isRecordingRef st')
    (filter (fun r => rec_id r ≠ id) (recordings st'))
    (currentRecordingRef st') (recordStartTimeRef st').

(** What a started part makes the program dispatch: Tone.Part calls the
    callback once per event, in the order of the events, with the time
    [start + event.time]; the callback looks the note up in the mappings
    of that moment and triggers only when it finds one.  A disposed part
    calls nothing. *)
Definition part_callback (m : gmap Z SoundMapping) (time : Q) (value : PartEvent)
    : list Audio.Dispatch :=
  match m !! pe_note value with
  | Some mapping =>
      [Audio.mkDispatch (instrument mapping) (pe_velocity value)
         {| Audio.pitch := Some (pitch mapping);
            Audio.triggerNote := Some (pe_note value);
            Audio.volume := volume mapping; Audio.pan := pan mapping;
            Audio.time := Some time |}]
  | None => []
  end.

Definition part_fire (m : gmap Z SoundMapping) (part : Part) : list Audio.Dispatch :=
  if p_disposed part then []
  else flat_map (fun value => part_callback m (p_start part + pe_time value)%Q value)
                (p_events part).

(** Everything playback of [rec] dispatches when it is started in [st]
    with the transport at [seconds] and left to run. *)
Definition playback_dispatches (seconds : Q) (rec : Recording) (st : State)
    : list Audio.Dispatch :=
  let st' := playBackRecording seconds rec st in
  match activeRecordingLoops st' !! rec_id rec with
  | Some p => match parts st' !! p with
              | Some part => part_fire (mappings st') part
              | None => []
              end
  | None => []
  end.

(** ** The mapper: [updateMapping] *)
Definition updateMapping (note : Z) (ins : Audio.InstrumentType) (new_pitch : Z)
    (st : State) : State :=
  let prev := mappings st !! note in
  with_mappings st
    (<[note := mkMapping ins new_pitch
                 (prev ≫= volume) (prev ≫= pan)]> (mappings st)).

(** ** The component as a transition system *)

(** Everything that can happen to the component between two renders. *)
Inductive step : State -> State -> Prop :=
| step_note now rnd note velocity st :
    step st (onNote now rnd note velocity st).1
| step_record now now2 st :
    step st (toggleRecording now now2 st)
| step_play seconds rec st :
    step st (playBackRecording seconds rec st)
| step_cleanup i st :
    step st (fire_cleanup i st)
| step_stop_all st :
    step st (stopAllRecordings st)
| step_delete id st :
    step st (deleteRecording id st)
| step_map note ins new_pitch st :
    step st (updateMapping note ins new_pitch st).




End Kit.

Module StepSeq.

Definition STEPS : nat := 16.

Record SequenceRow : Type := mkRow
  { row_id : string;
    row_name : string;
    row_instrument : Audio.InstrumentType;
    row_key : string;          (* panner the row's pan slider drives *)
    row_pitch : option Z }.

(** [seqState]: the rows and the grid of booleans, one list per row. *)
Record SeqState : Type := mkSeq
  { rows : list SequenceRow; grid : list (list bool) }.

Definition DEFAULT_ROWS : list SequenceRow :=
  [ mkRow "kick" "Kick" Audio.kick "kick" None;
    mkRow "snare" "Snare" Audio.snare "snare" None;
    mkRow "hh_c" "Hi-Hat" Audio.hihat_closed "hihat_closed" None;
    mkRow "hh_o" "Hi-Hat O" Audio.hihat_open "hihat_open" None;
    mkRow "tom_h" "Tom H" Audio.tom "tom" (Some 3);
    mkRow "tom_l" "Tom L" Audio.tom "tom" (Some (-1));
    mkRow "crash" "Crash" Audio.crash "crash" None;
    mkRow "shaker" "Shaker" Audio.shaker "hihat_closed" None;
    mkRow "clap" "Clap" Audio.clap "snare" None ].

Definition default_state : SeqState :=
  mkSeq DEFAULT_ROWS (map (fun _ => repeat false STEPS) DEFAULT_ROWS).

(** [triggerSound(row.instrument, 0.8, { pitch: row.pitch })] *)
Definition row_call (row : SequenceRow) : Audio.Dispatch :=
  Audio.mkDispatch (row_instrument row) (8 # 10)
    {| Audio.pitch := row_pitch row; Audio.volume := None; Audio.pan := None;
       Audio.triggerNote := None; Audio.time := None |}.

(** [seqState.grid[rowIndex][step]]: a missing cell is [undefined], which
    is falsy; a missing row makes the indexing throw. *)
Definition cell (g : list (list bool)) (rowIndex step : nat) : option bool :=
  match g !! rowIndex with
  | Some cells => Some (default false (cells !! step))
  | None => None
  end.

(** [rows.forEach((row, rowIndex) => ...)], from index [rowIndex] on. *)
Fixpoint each_row (rowIndex : nat) (rs : list SequenceRow) (g : list (list bool))
    (step : nat) : Outcome Audio.Dispatch :=
  match rs with
  | [] => Returned []
  | row :: rest =>
      match cell g rowIndex step with
      | None => Threw []
      | Some on =>
          let here := if on then [row_call row] else [] in
          match each_row (S rowIndex) rest g step with
          | Returned c => Returned (here ++ c)
          | Threw c => Threw (here ++ c)
          end
      end
  end.

(** The callback of the [Tone.Sequence]: [_time] is the time of the tick,
    which the callback does not use. *)
Definition tick (_time : Q) (step : nat) (st : SeqState) : Outcome Audio.Dispatch :=
  each_row 0 (rows st) (grid st) step.

(** The rows paired with their indices, counting from [i]. *)
Fixpoint indexed (i : nat) (rs : list SequenceRow) : list (nat * SequenceRow) :=
  match rs with
  | [] => []
  | row :: rest => (i, row) :: indexed (S i) rest
  end.

(** The cell of a row at a step is present and true. *)
Definition is_on (g : list (list bool)) (rowIndex step : nat) : bool :=
  match cell g rowIndex step with Some on => on | None => false end.

(** The rows, with their indices, whose cell at [step] is on. *)
Definition active_rows (st : SeqState) (step : nat) : list (nat * SequenceRow) :=
  List.filter (fun ir => is_on (grid st) ir.1 step) (indexed 0 (rows st)).

(** One pass of the loop over the steps [0 .. 15]; [t0] is the time of the
    first tick and [dt] the length of a sixteenth note. *)
Definition cycle (t0 dt : Q) (st : SeqState) : list (Outcome Audio.Dispatch) :=
  map (fun step => tick (t0 + inject_Z (Z.of_nat step) * dt)%Q step st) (seq 0 STEPS).

End StepSeq.

(** * Concrete situations used in the examples *)
Module Scenario.

(** The audio module after [initAudio], with all kit buffers loaded. *)
Definition ready : Audio.AudioState := Audio.initAudio_done true Audio.initial.

(** A world in which every audio file decodes and no MIDI file parses. *)
Definition audio_world : Audio.LoadEnv :=
  Audio.mkEnv (fun s => s) (fun _ => None) (fun _ => true).

(** A world in which MIDI files hold one note and audio files decode. *)
Definition one_note : Audio.Midi :=
  Audio.mkMidi [[Audio.mkMidiNote "C4" (1 # 2) 0 (8 # 10)]].

Definition mixed_world : Audio.LoadEnv :=
  Audio.mkEnv (fun s => s) (fun _ => Some one_note) (fun _ => true).

(** Two loads for pad 40 that overlap: both are called before either
    has completed, then the first completes, then the second. *)
Definition overlapped (env : Audio.LoadEnv) (urlA urlB : string) : Audio.AudioState :=
  let '(st1, pendingA) := Audio.load_begin env 40 urlA ready in
  let '(st2, pendingB) := Audio.load_begin env 40 urlB st1 in
  Audio.load_finish env pendingB (Audio.load_finish env pendingA st2).

(** A recording session on the default (empty) mapping table: start at
    clock 1000, two pad hits, stop at clock 2000. *)
Definition hits : list Kit.Input :=
  [Kit.mkInput 1000 "a" 60 100; Kit.mkInput 1250 "b" 62 64].

Definition session : Kit.State :=
  Kit.toggleRecording 2000 2001
    (Kit.feed hits (Kit.toggleRecording 1000 1000 Kit.initial)).

Definition take1 : Kit.Recording :=
  Kit.mkRecording 2001 "Take 1"
    [Kit.mkEvent "1000-a" 60 100 0; Kit.mkEvent "1250-b" 62 64 250] 1000.

(** The same session after pads 60 and 62 have been mapped. *)
Definition mapped_session : Kit.State :=
  Kit.updateMapping 62 Audio.custom 0 (Kit.updateMapping 60 Audio.snare 2 session).

(** The default rows with the kick (row 0) on at steps 0, 4, 8 and 12. *)
Definition four_on_the_floor : StepSeq.SeqState :=
  StepSeq.mkSeq StepSeq.DEFAULT_ROWS
    ((map (fun step => (step mod 4 =? 0)%nat) (seq 0 StepSeq.STEPS))
     :: map (fun _ => repeat false StepSeq.STEPS) (tail StepSeq.DEFAULT_ROWS)).

End Scenario.

(** * Views on the audio module used to state its properties *)
Module AudioView.
Import Audio.

(** The instruments played by a player of the default kit. *)
Definition uses_kit (t : InstrumentType) : bool :=
  match t with
  | kick | kick_808 | snare | snare_808 | clap | hihat_closed | hihat_open => true
  | _ => false
  end.

(** The instruments whose [case] reads [params.pitch] or [pbRate]. *)
Definition reads_pitch (t : InstrumentType) : bool :=
  match t with
  | tom | cowbell | custom => true
  | _ => uses_kit t
  end.

(** The instruments whose name is also the name of a panner made by
    [initAudio]. *)
Definition has_panner (t : InstrumentType) : bool :=
  match t with
  | tom | crash | splash | china | ride | cowbell | shaker => true
  | _ => false
  end.

Definition set_pan (p : option Q) (params : SoundParams) : SoundParams :=
  {| pitch := pitch params; volume := volume params; pan := p;
     triggerNote := triggerNote params; time := time params |}.

Definition set_pitch (p : option Z) (params : SoundParams) : SoundParams :=
  {| pitch := p; volume := volume params; pan := pan params;
     triggerNote := triggerNote params; time := time params |}.

(** The linear gain a command sets on a player, or the velocity it gives
    to one of the drum synthesisers. *)
Definition cmd_level (c : AudioCmd) : option Q :=
  match c with
  | CmdPlayerVolume _ g => Some g
  | CmdSynth _ _ _ _ v => Some v
  | _ => None
  end.

(** The time argument of a command on a player or a drum synthesiser. *)
Definition cmd_time (c : AudioCmd) : option (option Q) :=
  match c with
  | CmdPlayerStop _ t => Some t
  | CmdPlayerStart _ t _ _ => Some t
  | CmdSynth _ _ _ t _ => Some t
  | _ => None
  end.

(** The pattern has at least one note. *)
Definition has_notes (m : Midi) : bool :=
  existsb (fun track => match track with [] => false | _ :: _ => true end) (tracks m).

(** The string has no dot. *)
Fixpoint dotless (s : string) : bool :=
  match s with
  | EmptyString => true
  | String c s' => negb (Ascii.eqb c "."%char) && dotless s'
  end.


End AudioView.

(** * The rest of the DrumKit component *)
Module KitUI.
Import Kit.

(** ** The history strip: [setMidiHistory(prev => [newEvent, ...prev].slice(0, 3))] *)
Definition pushHistory (newEvent : MidiEvent) (prev : list MidiEvent) : list MidiEvent :=
  take 3 (newEvent :: prev).

(** The event the listener builds for an input: absolute timestamp. *)
Definition absolute (i : Input) : MidiEvent :=
  mkEvent (pretty (in_now i) ++ "-" ++ in_rnd i) (in_note i) (in_velocity i) (in_now i).

(** The history after the listener has handled the inputs in turn. *)
Fixpoint historyAfter (inputs : list Input) (history : list MidiEvent) : list MidiEvent :=
  match inputs with
  | [] => history
  | i :: rest => historyAfter rest (pushHistory (absolute i) history)
  end.

(** ** Presets *)

Record Preset : Type := mkPreset
  { preset_id : string; preset_name : string; preset_mappings : gmap Z SoundMapping }.

(** [saveKit]: [answer] is what [prompt] returned ([None] for a cancelled
    dialog), [now] the reading of [Date.now()].  An empty answer is falsy.
    The new preset is put in front of the list. *)
Definition saveKit (answer : option string) (now : Z) (m : gmap Z SoundMapping)
    (presets : list Preset) : list Preset :=
  match answer with
  | Some name =>
      if String.eqb name "" then presets
      else mkPreset (pretty now) name m :: presets
  | None => presets
  end.

(** [loadKit]: [confirmed] is the answer to [window.confirm]. *)
Definition loadKit (confirmed : bool) (preset : Preset) (st : State) : State :=
  if confirmed then with_mappings st (preset_mappings preset) else st.

(** [deleteKit]: [presets.filter(p => p.id !== id)] after confirmation. *)
Definition deleteKit (confirmed : bool) (id : string) (presets : list Preset)
    : list Preset :=
  if confirmed then List.filter (fun p => negb (String.eqb (preset_id p) id)) presets
  else presets.

(** ** The pitch slider of the mapper:
    [updateMapping(note, mappings[note]?.instrument || 'tom', parseInt(value))] *)
Definition pitchSlider (note : Z) (value : Z) (st : State) : State :=
  updateMapping note
    (match mappings st !! note with
     | Some mapping => instrument mapping
     | None => Audio.tom
     end)
    value st.

(** ** Steps that are not edits of the mapping table *)
Inductive quiet_step : State -> State -> Prop :=
| quiet_note now rnd note velocity st :
    quiet_step st (onNote now rnd note velocity st).1
| quiet_record now now2 st :
    quiet_step st (toggleRecording now now2 st)
| quiet_play seconds rec st :
    quiet_step st (playBackRecording seconds rec st)
| quiet_cleanup i st :
    quiet_step st (fire_cleanup i st)
| quiet_stop_all st :
    quiet_step st (stopAllRecordings st)
| quiet_delete id st :
    quiet_step st (deleteRecording id st).

End KitUI.

(** * The MIDI hook (hooks/useMidi.ts) *)
Module Hook.

(** [handleMidiMessage]: [data] is [event.data] ([None] when it is
    missing), a byte array.  A byte that is not there reads as
    [undefined], and a comparison with [undefined] is false.  The result
    is the (note, velocity) pair handed to every listener, if any. *)
Definition handleMidiMessage (data : option (list Z)) : option (Z * Z) :=
  match data with
  | None => None
  | Some bytes =>
      match bytes !! 0%nat, bytes !! 2%nat with
      | Some command, Some velocity =>
          if ((144 <=? command)%Z && (command <=? 159)%Z && (0 <? velocity)%Z)%bool
          then match bytes !! 1%nat with
               | Some note => Some (note, velocity)
               | None => None
               end
          else None
      | _, _ => None
      end
  end.

(** Listeners are closures; a closure is known by its identity. *)
Definition addListener (callback : nat) (listeners : list nat) : list nat :=
  (listeners ++ [callback])%list.

(** The function [addListener] returns:
    [listeners.filter(l => l !== callback)]. *)
Definition removeListener (callback : nat) (listeners : list nat) : list nat :=
  List.filter (fun l => negb (Nat.eqb l callback)) listeners.

(** [listenersRef.current.forEach(cb => cb(note, velocity))]: the calls
    made for a message, in order. *)
Definition deliver (data : option (list Z)) (listeners : list nat)
    : list (nat * Z * Z) :=
  match handleMidiMessage data with
  | Some (note, velocity) => map (fun cb => (cb, note, velocity)) listeners
  | None => []
  end.

End Hook.

(** * Editing the step grid (components/Sequencer.tsx) *)
Module Editor.
Import StepSeq.

(** The result of an edit.  [Unmodelled] marks the inputs on which the
    source builds a value the types above do not hold (an array with
    holes, a row without its fields); the interface never produces them. *)
Inductive Edit : Type :=
| Done (st : SeqState)
| Throws
| Unmodelled.

(** The initial state: what was saved is used when it has as many grid
    lines as rows, the defaults otherwise ([None]: nothing saved, not
    parsable, or a field missing). *)
Definition load_state (saved : option SeqState) : SeqState :=
  match saved with
  | Some parsed =>
      if Nat.eqb (length (rows parsed)) (length (grid parsed)) then parsed
      else default_state
  | None => default_state
  end.

(** [toggleStep]: the grid is copied and one cell negated.  A row index
    outside the grid is a TypeError. *)
Definition toggleStep (rowIndex colIndex : nat) (st : SeqState) : Edit :=
  match grid st !! rowIndex with
  | None => Throws
  | Some cells =>
      match cells !! colIndex with
      | None => Unmodelled
      | Some on =>
          Done (mkSeq (rows st) (<[rowIndex := <[colIndex := negb on]> cells]> (grid st)))
      end
  end.

(** [clearGrid]: one line of sixteen [false] per row. *)
Definition clearGrid (st : SeqState) : SeqState :=
  mkSeq (rows st) (map (fun _ => repeat false STEPS) (rows st)).

(** [addTrack]: a kick row named 'New Track' with an empty line; [now]
    is the reading of [Date.now()] that becomes the row id. *)
Definition addTrack (now : Z) (st : SeqState) : SeqState :=
  mkSeq (rows st ++ [mkRow (pretty now) "New Track" Audio.kick "kick" None])
        (grid st ++ [repeat false STEPS]).

(** [deleteTrack]: after confirmation, the row and the line at the index
    are filtered out (nothing is, when the index is outside). *)
Definition deleteTrack (confirmed : bool) (index : nat) (st : SeqState) : SeqState :=
  if confirmed then mkSeq (delete index (rows st)) (delete index (grid st)) else st.

(** A [Partial<SequenceRow>]. *)
Record RowUpdate : Type := mkUpdate
  { u_id : option string; u_name : option string;
    u_instrument : option Audio.InstrumentType;
    u_key : option string; u_pitch : option Z }.

(** [{ ...row, ...updates }], then the key follows a changed instrument. *)
Definition apply_update (updates : RowUpdate) (row : SequenceRow) : SequenceRow :=
  mkRow (default (row_id row) (u_id updates))
        (default (row_name row) (u_name updates))
        (default (row_instrument row) (u_instrument updates))
        (match u_instrument updates with
         | Some ins => Audio.instrument_name ins
         | None => default (row_key row) (u_key updates)
         end)
        (match u_pitch updates with Some p => Some p | None => row_pitch row end).

Definition updateRow (index : nat) (updates : RowUpdate) (st : SeqState) : Edit :=
  match rows st !! index with
  | None => Unmodelled
  | Some row => Done (mkSeq (<[index := apply_update updates row]> (rows st)) (grid st))
  end.

(** The edits the interface can make. *)
Inductive edit_step : SeqState -> SeqState -> Prop :=
| edit_toggle r c st st' : toggleStep r c st = Done st' -> edit_step st st'
| edit_clear st : edit_step st (clearGrid st)
| edit_add now st : edit_step st (addTrack now st)
| edit_delete confirmed index st : edit_step st (deleteTrack confirmed index st)
| edit_update index updates st st' :
    updateRow index updates st = Done st' -> edit_step st st'.

(** [triggerSound] for each call in turn; the first call that throws
    ends the run, and what was issued before it stays issued. *)
Fixpoint perform_calls (ast : Audio.AudioState) (tone_now : Q)
    (calls : list Audio.Dispatch) : Outcome Audio.AudioCmd :=
  match calls with
  | [] => Returned []
  | d :: rest =>
      match Audio.perform ast tone_now d with
      | Threw c => Threw c
      | Returned c =>
          match perform_calls ast tone_now rest with
          | Returned c' => Returned (c ++ c')
          | Threw c' => Threw (c ++ c')
          end
      end
  end.

(** The tick callback run against the audio module: the calls of the
    rows are made as the rows are visited, so an exception of a call, or
    of the indexing of the grid, ends the callback there. *)
Definition run_tick (ast : Audio.AudioState) (tone_now : Q) (t : Q) (step : nat)
    (st : SeqState) : Outcome Audio.AudioCmd :=
  match tick t step st with
  | Returned calls => perform_calls ast tone_now calls
  | Threw calls => Threw (commands (perform_calls ast tone_now calls))
  end.

(** What each row contributes to a tick: its call, or nothing. *)
Definition per_row (st : SeqState) (step : nat) : list (list Audio.Dispatch) :=
  zip_with (fun row cells => if default false (cells !! step) then [row_call row] else [])
           (rows st) (grid st).

End Editor.

(** * Properties *)

(** ** Velocity normalisation *)

Section Velocity.
Local Open Scope Q_scope.

Lemma gtb_true (x y : Q) : Audio.gtb x y = true <-> y < x.
Proof.
  unfold Audio.gtb. rewrite negb_true_iff, <- not_true_iff_false, Qle_bool_iff.
  split; [apply Qnot_le_lt | apply Qlt_not_le].
Qed.



Lemma clamp_inside (lo hi x : Q) : lo <= x -> x <= hi -> Audio.clamp lo hi x == x.
Proof.
  intros Hl Hh. unfold Audio.clamp.
  rewrite (Q.max_l x lo Hl). apply Q.min_l, Hh.
Qed.

Lemma clamp_below (lo hi x : Q) : x <= lo -> lo <= hi -> Audio.clamp lo hi x == lo.
Proof.
  intros Hx Hlh. unfold Audio.clamp.
  rewrite (Q.max_r x lo Hx). apply Q.min_l, Hlh.
Qed.






(** The gain handed to a voice is the normalised velocity times the
    volume multiplier, never below 1/1000. *)
Lemma effectiveVel_floor (v : Q) (params : Audio.SoundParams) :
  1 # 1000 <= Audio.effectiveVel v params.
Proof. unfold Audio.effectiveVel. apply Q.le_max_r. Qed.

Example normalize_midi_100 : Audio.normalizeVelocity 100 == 100 # 127.
Proof. vm_compute. reflexivity. Qed.

Example normalize_midi_5 : Audio.normalizeVelocity 5 == 1 # 10.
Proof. vm_compute. reflexivity. Qed.

Example normalize_fraction : Audio.normalizeVelocity (8 # 10) = 8 # 10.
Proof. reflexivity. Qed.

End Velocity.

(** ** Per-voice pan *)

Section Pan.

(** [updatePan] on a name that has a panner returns, and stores the value
    it was given. *)
Lemma updatePan_lookup (name : string) (value : Q) (st : Audio.AudioState) :
  is_Some (Audio.panners st !! name) ->
  exists st', Audio.updatePan name value st = Some st' /\
              Audio.panners st' !! name = Some value.
Proof.
  intros [old Hold]. unfold Audio.updatePan. rewrite Hold.
  eexists. split; [reflexivity |]. simpl. apply lookup_insert_eq.
Qed.




(** A name that the [panners] object inherits makes the call throw. *)
Example updatePan_constructor_throws :
  Audio.updatePan "constructor" 0 (Audio.initAudio_done true Audio.initial) = None.
Proof. reflexivity. Qed.

End Pan.

(** ** The registry of custom sounds *)

Section Registry.
Import Audio.

Lemma loadUserSample_cases env noteId fileUrl st :
  loaded_as st (pretty noteId) (loadUserSample env noteId fileUrl st).
Proof.
  unfold loadUserSample, load_begin. fold (released st (pretty noteId)).
  destruct (String.eqb (extension fileUrl) "prt_omn").
  { eapply loaded_nothing; [left; reflexivity | reflexivity]. }
  destruct (String.eqb (extension fileUrl) "mid").
  { simpl. destruct (fetch_midi env _).
    - eapply loaded_midi. reflexivity.
    - eapply loaded_nothing; [left; reflexivity | reflexivity]. }
  destruct (reverb st); simpl.
  - destruct (load_audio env _).
    + eapply loaded_audio. reflexivity.
    + eapply loaded_nothing; [right; reflexivity | reflexivity].
  - eapply loaded_nothing; [right; reflexivity | reflexivity].
Qed.

Lemma released_allocated st k p :
  registry_ok st → p ∈ released st k → (p < next_player st)%nat.
Proof.
  intros Hok. unfold released.
  destruct (customPlayers st !! k) as [old|] eqn:Hold.
  - rewrite elem_of_union, elem_of_singleton. intros [-> | Hp].
    + apply (stored_live st Hok k old Hold).
    + apply (disposed_allocated st Hok p Hp).
  - apply (disposed_allocated st Hok).
Qed.

Lemma released_other st k k' pl :
  registry_ok st → k' ≠ k → customPlayers st !! k' = Some pl →
  pl_id pl ∉ released st k.
Proof.
  intros Hok Hne Hpl. unfold released.
  destruct (customPlayers st !! k) as [old|] eqn:Hold.
  - rewrite elem_of_union, elem_of_singleton. intros [Heq | Hp].
    + apply Hne. apply (stored_once st Hok k' k pl old Hpl Hold Heq).
    + apply (stored_live st Hok k' pl Hpl). exact Hp.
  - apply (stored_live st Hok k' pl Hpl).
Qed.

Lemma loaded_as_ok st k st' :
  registry_ok st → loaded_as st k st' → registry_ok st'.
Proof.
  intros Hok Hl.
  destruct Hl as [next Hnext -> | m -> | url ->]; constructor; simpl.
  - intros p Hp. apply (released_allocated _ _ _ Hok) in Hp. destruct Hnext; lia.
  - intros k' pl Hpl. apply lookup_delete_Some in Hpl as [Hne Hpl].
    split; simpl.
    + pose proof (stored_live st Hok k' pl Hpl) as [Hlt _]. destruct Hnext; lia.
    + apply (released_other st k k' pl Hok); [congruence | exact Hpl].
  - intros k1 k2 pl1 pl2 H1 H2.
    apply lookup_delete_Some in H1 as [_ H1]. apply lookup_delete_Some in H2 as [_ H2].
    apply (stored_once st Hok k1 k2 pl1 pl2 H1 H2).
  - intros p Hp. apply (released_allocated _ _ _ Hok Hp).
  - intros k' pl Hpl. apply lookup_delete_Some in Hpl as [Hne Hpl].
    split; simpl.
    + apply (stored_live st Hok k' pl Hpl).
    + apply (released_other st k k' pl Hok); [congruence | exact Hpl].
  - intros k1 k2 pl1 pl2 H1 H2.
    apply lookup_delete_Some in H1 as [_ H1]. apply lookup_delete_Some in H2 as [_ H2].
    apply (stored_once st Hok k1 k2 pl1 pl2 H1 H2).
  - intros p Hp. apply (released_allocated _ _ _ Hok) in Hp. lia.
  - intros k' pl Hpl. apply lookup_insert_Some in Hpl as [[<- <-] | [Hne Hpl]].
    + split; simpl; [lia |].
      intros Hp. apply (released_allocated _ _ _ Hok) in Hp. lia.
    + apply lookup_delete_Some in Hpl as [_ Hpl]. split; simpl.
      * pose proof (stored_live st Hok k' pl Hpl) as [Hlt _]. lia.
      * apply (released_other st k k' pl Hok); [congruence | exact Hpl].
  - intros k1 k2 pl1 pl2 H1 H2 Hid.
    apply lookup_insert_Some in H1 as [[<- <-] | [Hne1 H1]];
      apply lookup_insert_Some in H2 as [[<- <-] | [Hne2 H2]]; try reflexivity.
    + apply lookup_delete_Some in H2 as [_ H2].
      pose proof (stored_live st Hok k2 pl2 H2) as [Hlt _]. simpl in Hid. lia.
    + apply lookup_delete_Some in H1 as [_ H1].
      pose proof (stored_live st Hok k1 pl1 H1) as [Hlt _]. simpl in Hid. lia.
    + apply lookup_delete_Some in H1 as [_ H1]. apply lookup_delete_Some in H2 as [_ H2].
      apply (stored_once st Hok k1 k2 pl1 pl2 H1 H2 Hid).
Qed.

Lemma load_begin_state env noteId fileUrl st :
  let st1 := (load_begin env noteId fileUrl st).1 in
  customPlayers st1 = delete (pretty noteId) (customPlayers st) ∧
  customMidi st1 = delete (pretty noteId) (customMidi st) ∧
  disposed st1 = released st (pretty noteId).
Proof.
  unfold load_begin. fold (released st (pretty noteId)).
  destruct (String.eqb (extension fileUrl) "prt_omn"); [simpl; auto |].
  destruct (String.eqb (extension fileUrl) "mid"); [simpl; auto |].
  destruct (reverb st); simpl; auto.
Qed.

Lemma loaded_as_entries st noteId st' :
  loaded_as st (pretty noteId) st' → (entries st' noteId ≤ 1)%nat.
Proof.
  intros [next _ -> | m -> | url ->]; unfold entries; simpl.
  - rewrite !lookup_delete_eq. lia.
  - rewrite lookup_delete_eq, lookup_insert_eq. lia.
  - rewrite lookup_delete_eq, lookup_insert_eq. lia.
Qed.

Lemma loaded_as_disposed st k st' :
  loaded_as st k st' → disposed st' = released st k.
Proof. intros [next _ -> | m -> | url ->]; reflexivity. Qed.

(** Loads that do not overlap.  Starting from a registry that holds only
    live players, a load
    for a pad that runs to completion leaves the registry in that
    condition, with at most one entry (player or pattern) for the pad; a
    player the pad held before has been disposed, and the pad's slot
    emptied, by the synchronous first part of the load, that is before
    the new content is stored, and it is no longer live afterwards. *)
Theorem registry_replacement env noteId fileUrl st :
  registry_ok st →
  let st1 := (load_begin env noteId fileUrl st).1 in
  let st' := loadUserSample env noteId fileUrl st in
  registry_ok st' ∧
  (entries st' noteId ≤ 1)%nat ∧
  (∀ old, customPlayers st !! pretty noteId = Some old →
     pl_id old ∈ disposed st1 ∧ entries st1 noteId = 0%nat ∧
     ¬ live st' (pl_id old) ∧ customPlayers st' !! pretty noteId ≠ Some old).
Proof.
  intros Hok st1 st'.
  pose proof (loadUserSample_cases env noteId fileUrl st) as Hcases.
  fold st' in Hcases.
  destruct (load_begin_state env noteId fileUrl st) as (Hp & Hm & Hd).
  fold st1 in Hp, Hm, Hd.
  split; [exact (loaded_as_ok st _ st' Hok Hcases) | split].
  - exact (loaded_as_entries st noteId st' Hcases).
  - intros old Hold.
    assert (Hin : pl_id old ∈ released st (pretty noteId)).
    { unfold released. rewrite Hold. apply elem_of_union_l, elem_of_singleton. reflexivity. }
    split; [rewrite Hd; exact Hin | split; [| split]].
    + unfold entries. rewrite Hp, Hm, !lookup_delete_eq. reflexivity.
    + intros [_ Hnot]. apply Hnot.
      rewrite (loaded_as_disposed st _ st' Hcases). exact Hin.
    + intros Hstill.
      pose proof (stored_live st' (loaded_as_ok st _ st' Hok Hcases) _ _ Hstill) as [_ Hnot].
      apply Hnot. rewrite (loaded_as_disposed st _ st' Hcases). exact Hin.
Qed.

Lemma registry_ok_initial : registry_ok Audio.initial.
Proof.
  constructor; simpl.
  - intros p Hp. set_solver.
  - intros k pl Hpl. rewrite lookup_empty in Hpl. discriminate.
  - intros k k' pl pl' Hpl. rewrite lookup_empty in Hpl. discriminate.
Qed.

(** Initialising the module and moving a pan leave the registry alone. *)
Lemma registry_ok_init (loaded : bool) (st : AudioState) :
  registry_ok st → registry_ok (initAudio_done loaded st).
Proof.
  intros [H1 H2 H3]. unfold initAudio_done.
  destruct (isInitialized st); constructor; assumption.
Qed.

Lemma registry_ok_pan (name : string) (value : Q) (st st' : AudioState) :
  updatePan name value st = Some st' → registry_ok st → registry_ok st'.
Proof.
  unfold updatePan. intros Hpan [H1 H2 H3].
  destruct (panners st !! name); [| destruct (inherited name); [discriminate |]];
    injection Hpan as <-; constructor; assumption.
Qed.

Lemma registry_ok_ready : registry_ok Scenario.ready.
Proof.
  constructor.
  - intros p Hp. vm_compute in Hp. set_solver.
  - intros k pl Hpl. vm_compute in Hpl. discriminate.
  - intros k k' pl pl' Hpl. vm_compute in Hpl. discriminate.
Qed.

Lemma registry_replacement_witness :
  let stA := loadUserSample Scenario.audio_world 40 "/a.wav" Scenario.ready in
  let stB := loadUserSample Scenario.audio_world 40 "/b.wav" stA in
  registry_ok stA ∧ registry_ok stB ∧ (entries stB 40 ≤ 1)%nat ∧
  (∀ old, customPlayers stA !! pretty 40 = Some old →
     pl_id old ∈ disposed (load_begin Scenario.audio_world 40 "/b.wav" stA).1 ∧
     entries (load_begin Scenario.audio_world 40 "/b.wav" stA).1 40 = 0%nat ∧
     ¬ live stB (pl_id old) ∧ customPlayers stB !! pretty 40 ≠ Some old).
Proof.
  intros stA stB.
  assert (HA : registry_ok stA).
  { apply (registry_replacement Scenario.audio_world 40 "/a.wav" Scenario.ready).
    exact registry_ok_ready. }
  split; [exact HA |].
  exact (registry_replacement Scenario.audio_world 40 "/b.wav" stA HA).
Defined.

(** [load(40, a.wav)] then [load(40, b.wav)]: pad 40 holds exactly the
    second player; the first one (object 0) is disposed. *)
Example load_twice_pad_40 :
  let stB := loadUserSample Scenario.audio_world 40 "/b.wav"
               (loadUserSample Scenario.audio_world 40 "/a.wav" Scenario.ready) in
  customPlayers stB !! "40" = Some (mkPlayer 1 "/b.wav" true) ∧
  customMidi stB !! "40" = None ∧
  entries stB 40 = 1%nat ∧
  disposed stB = {[0%nat]} ∪ ∅.
Proof. vm_compute. repeat split. Qed.

(** Two loads for one pad that overlap (both started before either
    completes) are outside the theorem above: each finds the pad empty
    when it starts, so a pattern and a player end up stored together. *)
Example overlapping_loads_pad_40 :
  let '(st1, pA) := load_begin Scenario.mixed_world 40 "/a.mid" Scenario.ready in
  let '(st2, pB) := load_begin Scenario.mixed_world 40 "/b.wav" st1 in
  let st3 := load_finish Scenario.mixed_world pA st2 in
  let st4 := load_finish Scenario.mixed_world pB st3 in
  entries st4 40 = 2%nat.
Proof. vm_compute. reflexivity. Qed.

(** C5 at its failing input.  [loadUserSample(40, a)] and
    [loadUserSample(40, b)] are called one after the other without
    awaiting the first, as the component calls them.  Each finds pad 40
    empty when it starts, so neither disposes anything.  With two audio
    files the second player overwrites the first in the registry: player
    0 is still live (created, never disposed) but no key of the registry
    holds it any more.  With a MIDI file and an audio file the pad ends
    with two entries, a pattern and a player. *)
Theorem overlapping_loads_leak :
  let st := Scenario.overlapped Scenario.audio_world "/a.wav" "/b.wav" in
  customPlayers st !! "40" = Some (mkPlayer 1 "/b.wav" true) ∧
  live st 0 ∧ live st 1 ∧
  (∀ k pl, customPlayers st !! k = Some pl → pl_id pl ≠ 0%nat) ∧
  disposed st = ∅ ∧
  entries (Scenario.overlapped Scenario.mixed_world "/a.mid" "/b.wav") 40 = 2%nat.
Proof.
  assert (Hst : customPlayers (Scenario.overlapped Scenario.audio_world "/a.wav" "/b.wav")
                = {[ "40" := mkPlayer 1 "/b.wav" true ]})
    by (vm_compute; reflexivity).
  assert (Hd : disposed (Scenario.overlapped Scenario.audio_world "/a.wav" "/b.wav") = ∅)
    by (vm_compute; reflexivity).
  assert (Hn : next_player (Scenario.overlapped Scenario.audio_world "/a.wav" "/b.wav")
               = 2%nat) by reflexivity.
  cbv zeta. unfold live. rewrite Hst, Hd, Hn.
  split; [apply lookup_singleton_eq | split; [| split; [| split; [| split]]]].
  - split; [lia | set_solver].
  - split; [lia | set_solver].
  - intros k pl Hpl. apply lookup_singleton_Some in Hpl as [_ <-]. discriminate.
  - reflexivity.
  - vm_compute. reflexivity.
Qed.

End Registry.

(** ** Pad presses and the fallback *)

Section Fallback.

Lemma perform_cowbell (ast : Audio.AudioState) (tone_now velocity : Q)
    (params : Audio.SoundParams) :
  Audio.perform ast tone_now (Audio.mkDispatch Audio.cowbell velocity params)
  = Returned ((if Audio.isInitialized ast then [] else [Audio.CmdInitAudio])
              ++ (if Audio.synths ast Audio.woodblockSynth
                  then [Audio.CmdSynth Audio.woodblockSynth
                          (Some (Audio.transposed "G4" params)) "16n"
                          (Audio.time params) (Audio.effectiveVel velocity params)]
                  else [])).
Proof.
  unfold Audio.perform, Audio.triggerSound. simpl. unfold Audio.synth_shot.
  destruct (Audio.synths ast Audio.woodblockSynth); reflexivity.
Qed.

Lemma perform_custom_empty (ast : Audio.AudioState) (tone_now velocity : Q)
    (params : Audio.SoundParams) (note : Z) :
  Audio.triggerNote params = Some note ->
  Audio.customPlayers ast !! pretty note = None ->
  Audio.customMidi ast !! pretty note = None ->
  Audio.perform ast tone_now (Audio.mkDispatch Audio.custom velocity params)
  = Returned ((if Audio.isInitialized ast then [] else [Audio.CmdInitAudio]) ++ []).
Proof.
  intros Hn Hp Hm. unfold Audio.perform, Audio.triggerSound. simpl.
  unfold Audio.custom_shot. rewrite Hn, Hm, Hp. reflexivity.
Qed.

Lemma filter_audible_pre (init : bool) (cs : list Audio.AudioCmd) :
  List.filter Audio.audible ((if init then [] else [Audio.CmdInitAudio]) ++ cs)
  = List.filter Audio.audible cs.
Proof. destruct init; reflexivity. Qed.

(** C8 as stated fails: with pad 36 mapped to [custom] and nothing loaded
    for it, a press returns normally but triggers no sound at all. *)
Lemma custom_without_entry_is_silent :
  let st := Kit.updateMapping 36 Audio.custom 0 Kit.initial in
  let out := (Kit.press Scenario.ready 0 5000 "x" 36 100 st).2 in
  returns out = true /\
  ~ exists c, In c (commands out) /\ Audio.audible c = true.
Proof.
  vm_compute. split; [reflexivity |]. intros [c [[] _]].
Qed.

(** C8, amended.  A pad press never throws into the listener in these two
    cases.  With no mapping for the note, the listener triggers the fixed
    fallback, the cowbell at +12 semitones, and once the woodblock voice
    exists this sounds exactly one note.  With a [custom] mapping and no
    registry entry for the note, the press is a silent no-op. *)
Theorem press_fallback (ast : Audio.AudioState) (tone_now : Q) (now : Z)
    (rnd : string) (note : Z) (velocity : Q) (st : Kit.State) :
  let out := (Kit.press ast tone_now now rnd note velocity st).2 in
  (Kit.mappings st !! note = None ->
   returns out = true /\
   (Audio.synths ast Audio.woodblockSynth = true ->
    List.filter Audio.audible (commands out)
    = [Audio.CmdSynth Audio.woodblockSynth (Some (Audio.mkNote "G4" 12)) "16n" None
         (Qmax (Audio.normalizeVelocity velocity * 1) (1 # 1000))])) /\
  (forall mapping,
   Kit.mappings st !! note = Some mapping ->
   Kit.instrument mapping = Audio.custom ->
   Audio.customPlayers ast !! pretty note = None ->
   Audio.customMidi ast !! pretty note = None ->
   returns out = true /\ List.filter Audio.audible (commands out) = []).
Proof.
  unfold Kit.press, Kit.onNote, Kit.live_dispatch. simpl. split.
  - intros Hnone. rewrite Hnone, perform_cowbell. split; [reflexivity |].
    intros Hw. simpl commands. rewrite filter_audible_pre, Hw. reflexivity.
  - intros mapping Hm Hc Hp Hmidi. rewrite Hm, Hc.
    rewrite perform_custom_empty with (note := note) by (reflexivity || assumption).
    split; [reflexivity |]. simpl commands. rewrite filter_audible_pre. reflexivity.
Qed.

Lemma press_fallback_witness :
  (returns (Kit.press Scenario.ready 0 5000 "x" 36 100 Kit.initial).2 = true /\
   List.filter Audio.audible
     (commands (Kit.press Scenario.ready 0 5000 "x" 36 100 Kit.initial).2)
   = [Audio.CmdSynth Audio.woodblockSynth (Some (Audio.mkNote "G4" 12)) "16n" None
        (Qmax (Audio.normalizeVelocity 100 * 1) (1 # 1000))]) /\
  (returns (Kit.press Scenario.ready 0 5000 "x" 36 100
              (Kit.updateMapping 36 Audio.custom 0 Kit.initial)).2 = true /\
   List.filter Audio.audible
     (commands (Kit.press Scenario.ready 0 5000 "x" 36 100
                  (Kit.updateMapping 36 Audio.custom 0 Kit.initial)).2) = []).
Proof.
  split.
  - destruct (press_fallback Scenario.ready 0 5000 "x" 36 100 Kit.initial) as [H _].
    destruct (H eq_refl) as [Hr Ha]. split; [exact Hr | apply Ha; reflexivity].
  - destruct (press_fallback Scenario.ready 0 5000 "x" 36 100
                (Kit.updateMapping 36 Audio.custom 0 Kit.initial)) as [_ H].
    apply (H (Kit.mkMapping Audio.custom 0 None None)); reflexivity.
Defined.

End Fallback.

(** ** The recorder *)

Section Recorder.
Import Kit.

(** While a recording runs, the listener appends each input, with its
    timestamp relative to the start, and touches nothing else. *)
Lemma feed_recording (inputs : list Input) (st : State) :
  isRecordingRef st = true ->
  feed inputs st
  = with_recorder st (isRecording st) true (recordings st)
      (currentRecordingRef st ++ map (relative (recordStartTimeRef st)) inputs)
      (recordStartTimeRef st).
Proof.
  revert st. induction inputs as [|i rest IH]; intros st Hrec.
  - simpl. rewrite app_nil_r. destruct st; simpl in *; subst; reflexivity.
  - simpl feed. unfold onNote. rewrite Hrec. simpl fst.
    rewrite IH by reflexivity. unfold with_recorder; simpl.
    rewrite <- app_assoc. reflexivity.
Qed.

(** C6.  Stopping a running recording puts the recorder back to idle.  If
    the buffer holds at least one event, a new take is put in front of the
    take list; its events are the buffer and its duration is the clock at
    the stop minus the clock at the start.  With an empty buffer the take
    list is left as it was. *)
Theorem stop_recording (now now2 : Z) (st : State) :
  isRecording st = true ->
  let st' := toggleRecording now now2 st in
  isRecording st' = false /\ isRecordingRef st' = false /\
  (currentRecordingRef st <> [] ->
   exists take,
     recordings st' = take :: recordings st /\
     rec_events take = currentRecordingRef st /\
     rec_duration take = now - recordStartTimeRef st) /\
  (currentRecordingRef st = [] -> recordings st' = recordings st).
Proof.
  intros Hrec. unfold toggleRecording. rewrite Hrec. simpl.
  repeat split.
  - intros Hne. destruct (currentRecordingRef st) as [|e buf] eqn:Hbuf; [congruence |].
    eexists. split; [reflexivity |]. split; reflexivity.
  - intros ->. reflexivity.
Qed.

(** A whole session: start on an idle recorder at clock [t0], the inputs,
    stop at clock [t1]. *)
Lemma recorded_session (t0 c0 t1 c1 : Z) (inputs : list Input) (st : State) :
  isRecording st = false -> inputs <> [] ->
  recordings (toggleRecording t1 c1 (feed inputs (toggleRecording t0 c0 st)))
  = mkRecording c1 ("Take " ++ pretty (Z.of_nat (length (recordings st)) + 1))
      (map (relative t0) inputs) (t1 - t0)
    :: recordings st.
Proof.
  intros Hidle Hne. unfold toggleRecording at 2. rewrite Hidle. simpl negb. cbv iota.
  rewrite feed_recording by reflexivity. simpl.
  unfold toggleRecording. simpl.
  destruct inputs as [|i rest]; [congruence | reflexivity].
Qed.

Lemma stop_recording_witness :
  let st := feed Scenario.hits (toggleRecording 1000 1000 initial) in
  let st' := toggleRecording 2000 2001 st in
  isRecording st' = false /\ isRecordingRef st' = false /\
  (exists take,
     recordings st' = take :: recordings st /\
     rec_events take = currentRecordingRef st /\
     rec_duration take = 2000 - recordStartTimeRef st) /\
  recordings (toggleRecording 3000 3001 (toggleRecording 2500 2500 initial)) = [].
Proof.
  intros st st'.
  destruct (stop_recording 2000 2001 st eq_refl) as (H1 & H2 & H3 & _).
  destruct (stop_recording 3000 3001 (toggleRecording 2500 2500 initial) eq_refl)
    as (_ & _ & _ & H4).
  split; [exact H1 | split; [exact H2 | split]].
  - apply H3. discriminate.
  - apply H4. reflexivity.
Defined.

Example session_take : recordings Scenario.session = [Scenario.take1].
Proof. reflexivity. Qed.

End Recorder.

(** ** The mapper *)

Section Mapper.
Import Kit.

(** C10.  [updateMapping] sets the instrument and the pitch of the note's
    mapping, keeps the volume and pan the note had (none if it had no
    mapping), and leaves the mapping of every other note, and the rest of
    the state, as it was. *)
Theorem updateMapping_frame (note : Z) (ins : Audio.InstrumentType) (new_pitch : Z)
    (st : State) :
  let st' := updateMapping note ins new_pitch st in
  (exists m, mappings st' !! note = Some m /\
     instrument m = ins /\ pitch m = new_pitch /\
     volume m = (mappings st !! note) ≫= volume /\
     pan m = (mappings st !! note) ≫= pan) /\
  (forall old, mappings st !! note = Some old ->
     exists m, mappings st' !! note = Some m /\
       volume m = volume old /\ pan m = pan old) /\
  (forall other, other <> note -> mappings st' !! other = mappings st !! other) /\
  st' = with_mappings st (mappings st').
Proof.
  unfold updateMapping. simpl. repeat split.
  - eexists. rewrite lookup_insert_eq. repeat split; reflexivity.
  - intros old Hold. eexists. rewrite lookup_insert_eq. rewrite Hold.
    repeat split; reflexivity.
  - intros other Hne. apply lookup_insert_ne. congruence.
Qed.

Lemma updateMapping_frame_witness :
  let st := with_mappings initial
              {[ 36 := mkMapping Audio.kick 0 (Some (1 # 2)%Q) (Some (-1)%Q);
                 38 := mkMapping Audio.snare 1 None None ]} in
  let st' := updateMapping 36 Audio.tom 5 st in
  (exists m, mappings st' !! 36 = Some m /\
     volume m = Some (1 # 2)%Q /\ pan m = Some (-1)%Q) /\
  mappings st' !! 38 = mappings st !! 38.
Proof.
  intros st st'.
  destruct (updateMapping_frame 36 Audio.tom 5 st) as (_ & Hold & Hother & _).
  split.
  - apply (Hold (mkMapping Audio.kick 0 (Some (1 # 2)%Q) (Some (-1)%Q))). reflexivity.
  - apply Hother. discriminate.
Defined.

End Mapper.

(** ** Playback of a take *)

Section Playback.
Import Kit.
Local Open Scope Q_scope.

(** What a take that is not playing dispatches when it is played: for each
    of its events in order, the callback's calls at the time
    [seconds + 1/10 + timestamp/1000]. *)
Lemma playback_dispatches_spec (seconds : Q) (rec : Recording) (st : State) :
  activeRecordingLoops st !! rec_id rec = None ->
  playback_dispatches seconds rec st
  = flat_map (fun evt =>
      part_callback (mappings st)
        (seconds + (1 # 10) + inject_Z (ev_timestamp evt) / 1000)
        (mkPartEvent (inject_Z (ev_timestamp evt) / 1000) (ev_note evt) (ev_velocity evt)))
      (rec_events rec).
Proof.
  intros Hidle. unfold playback_dispatches, playBackRecording. rewrite Hidle. simpl.
  rewrite !lookup_insert_eq. unfold part_fire, partEvents. simpl.
  induction (rec_events rec) as [|evt evts IH]; [reflexivity |].
  simpl. rewrite IH. reflexivity.
Qed.

(** When every recorded note has a mapping, playback dispatches exactly
    the recorded (note, velocity) pairs, in order, at the anchored times. *)
Lemma playback_mapped_exact (seconds : Q) (rec : Recording) (st : State) :
  activeRecordingLoops st !! rec_id rec = None ->
  Forall (fun evt => is_Some (mappings st !! ev_note evt)) (rec_events rec) ->
  map (fun d => (Audio.triggerNote (Audio.d_params d), Audio.d_velocity d,
                 Audio.time (Audio.d_params d)))
      (playback_dispatches seconds rec st)
  = map (fun evt => (Some (ev_note evt), ev_velocity evt,
                     Some (seconds + (1 # 10) + inject_Z (ev_timestamp evt) / 1000)))
        (rec_events rec).
Proof.
  intros Hidle Hall. rewrite playback_dispatches_spec by exact Hidle.
  induction Hall as [|evt evts [m Hm] _ IH]; [reflexivity |].
  simpl. unfold part_callback at 1. simpl. rewrite Hm. simpl. rewrite IH. reflexivity.
Qed.

(** C1 at its failing input.  On the default, empty mapping table the two
    hits of the session each sound the fallback cowbell while they are
    recorded, and the session seals them into a take; playing that take
    dispatches nothing. *)
Theorem playback_drops_unmapped :
  recordings Scenario.session = [Scenario.take1] /\
  map (fun i => Audio.d_type
                  (live_dispatch Scenario.session (in_note i) (in_velocity i)))
      Scenario.hits = [Audio.cowbell; Audio.cowbell] /\
  playback_dispatches 0 Scenario.take1 Scenario.session = [].
Proof. repeat split. Qed.

(** The same take after the two pads have been mapped: both hits are
    dispatched, in order, one tenth of a second and 250 ms later. *)
Example playback_mapped_take :
  map (fun d => (Audio.triggerNote (Audio.d_params d), Audio.d_velocity d,
                 Audio.time (Audio.d_params d)))
      (playback_dispatches 0 Scenario.take1 Scenario.mapped_session)
  = [(Some 60%Z, 100, Some (0 + (1 # 10) + inject_Z 0 / 1000));
     (Some 62%Z, 64, Some (0 + (1 # 10) + inject_Z 250 / 1000))].
Proof. reflexivity. Qed.

End Playback.

(** ** Active timelines *)

Section Timelines.
Import Kit.

























End Timelines.

(** ** The step sequencer *)

Section Sequencer.
Import StepSeq.

Lemma each_row_spec (rs : list SequenceRow) (i : nat) (g : list (list bool)) (step : nat) :
  (i + length rs <= length g)%nat ->
  each_row i rs g step
  = Returned (map (fun ir => row_call ir.2)
                (List.filter (fun ir => is_on g ir.1 step) (indexed i rs))).
Proof.
  revert i. induction rs as [|row rest IH]; intros i Hlen; [reflexivity |].
  simpl in Hlen. simpl each_row. simpl indexed. simpl List.filter.
  unfold is_on at 1. simpl fst. unfold cell at 1 2.
  destruct (lookup_lt_is_Some_2 g i) as [cells Hcells]; [lia |].
  rewrite Hcells. rewrite IH by lia.
  destruct (default false (cells !! step)); reflexivity.
Qed.

Lemma indexed_elem (rs : list SequenceRow) (i j : nat) (row : SequenceRow) :
  In (j, row) (indexed i rs) <-> (i <= j)%nat /\ rs !! (j - i)%nat = Some row.
Proof.
  revert i. induction rs as [|r rest IH]; intros i; simpl.
  - split; [tauto | intros [_ H]; discriminate].
  - rewrite IH. split.
    + intros [Heq | [Hle Hrow]].
      * injection Heq as <- <-. split; [lia |]. now rewrite Nat.sub_diag.
      * split; [lia |]. replace (j - i)%nat with (S (j - S i)) by lia. exact Hrow.
    + intros [Hle Hrow]. destruct (decide (i = j)) as [<- | Hne].
      * left. rewrite Nat.sub_diag in Hrow. simpl in Hrow. congruence.
      * right. split; [lia |].
        replace (j - i)%nat with (S (j - S i)) in Hrow by lia. exact Hrow.
Qed.

Lemma indexed_fst (rs : list SequenceRow) (i : nat) :
  (indexed i rs).*1 = seq i (length rs).
Proof.
  revert i. induction rs as [|r rest IH]; intros i; simpl; [reflexivity |].
  now rewrite IH.
Qed.

Lemma active_rows_NoDup (st : SeqState) (step : nat) :
  List.NoDup (active_rows st step).
Proof.
  unfold active_rows. apply List.NoDup_filter.
  apply NoDup_ListNoDup, (NoDup_fmap_1 fst). rewrite indexed_fst.
  apply NoDup_ListNoDup, List.seq_NoDup.
Qed.

(** What a tick dispatches.  On a tick at step [step] of a grid with one
    line per row, [triggerSound] is called exactly once for each row whose
    cell at that step is on, in row order, with that row's instrument and
    pitch and velocity 8/10; it is not called for any other row.  No call
    carries a scheduled time. *)
Lemma tick_dispatches (t : Q) (step : nat) (st : SeqState) :
  length (rows st) = length (grid st) ->
  tick t step st = Returned (map (fun ir => row_call ir.2) (active_rows st step)) /\
  (forall i row, In (i, row) (active_rows st step) <->
                 rows st !! i = Some row /\ cell (grid st) i step = Some true) /\
  List.NoDup (active_rows st step) /\
  (forall d, In d (commands (tick t step st)) ->
     exists row, In row (rows st) /\
       d = Audio.mkDispatch (row_instrument row) (8 # 10)
             {| Audio.pitch := row_pitch row; Audio.volume := None; Audio.pan := None;
                Audio.triggerNote := None; Audio.time := None |}).
Proof.
  intros Hlen.
  assert (Htick : tick t step st
                  = Returned (map (fun ir => row_call ir.2) (active_rows st step))).
  { unfold tick, active_rows. apply each_row_spec. lia. }
  assert (Hmem : forall i row, In (i, row) (active_rows st step) <->
                   rows st !! i = Some row /\ cell (grid st) i step = Some true).
  { intros i row. unfold active_rows. rewrite List.filter_In, indexed_elem.
    rewrite Nat.sub_0_r. simpl. unfold is_on. split.
    - intros [[_ Hrow] Hon]. split; [exact Hrow |].
      destruct (cell (grid st) i step) as [[]|]; congruence.
    - intros [Hrow Hon]. rewrite Hon. repeat split; [lia | exact Hrow]. }
  split; [exact Htick | split; [exact Hmem | split; [apply active_rows_NoDup |]]].
  intros d Hd. rewrite Htick in Hd. simpl in Hd.
  apply List.in_map_iff in Hd as [[i row] [<- Hin]].
  exists row. split; [| reflexivity].
  apply Hmem in Hin as [Hrow _]. apply list_elem_of_In.
  apply list_elem_of_lookup. eauto.
Qed.

Example tick_four_on_the_floor :
  tick 3 4 Scenario.four_on_the_floor
  = Returned (map (fun ir => row_call ir.2) (active_rows Scenario.four_on_the_floor 4)) /\
  In (0%nat, mkRow "kick" "Kick" Audio.kick "kick" None)
     (active_rows Scenario.four_on_the_floor 4).
Proof.
  destruct (tick_dispatches 3 4 Scenario.four_on_the_floor eq_refl) as (Htick & Hmem & _).
  split; [exact Htick |]. apply Hmem. split; reflexivity.
Qed.

(** C3 at its failing input.  A tick at time 3 on step 0 of the
    four-on-the-floor grid calls the dispatcher once, for the kick row and
    no other, with the kick's instrument and pitch; the call carries no
    scheduled time, where the claim asks for the tick time 3. *)
Theorem tick_drops_time :
  tick 3 0 Scenario.four_on_the_floor
  = Returned [Audio.mkDispatch Audio.kick (8 # 10)
                {| Audio.pitch := None; Audio.volume := None; Audio.pan := None;
                   Audio.triggerNote := None; Audio.time := None |}] /\
  forall d, In d (commands (tick 3 0 Scenario.four_on_the_floor)) ->
            Audio.time (Audio.d_params d) <> Some 3%Q.
Proof.
  split; [reflexivity |].
  intros d [<- | []]. discriminate.
Qed.

(** One cycle over the four-on-the-floor grid: the kick is triggered on
    steps 0, 4, 8 and 12 and nothing is triggered on the other steps. *)
Example cycle_four_on_the_floor :
  map (fun o => length (commands o)) (cycle 0 (1 # 8) Scenario.four_on_the_floor)
  = [1; 0; 0; 0; 1; 0; 0; 0; 1; 0; 0; 0; 1; 0; 0; 0]%nat.
Proof. reflexivity. Qed.

End Sequencer.

(** * Further properties of the audio module *)

Section Effects.
Import Audio.
Local Open Scope Q_scope.



End Effects.


Section Trigger.
Import Audio AudioView.
Local Open Scope Q_scope.

Lemma returns_triggerSound st tone_now t v params :
  returns (triggerSound st tone_now t v params)
  = returns (dispatch st tone_now t v params).
Proof.
  unfold triggerSound. destruct (dispatch st tone_now t v params); reflexivity.
Qed.

Lemma commands_triggerSound st tone_now t v params :
  commands (triggerSound st tone_now t v params)
  = ((if isInitialized st then [] else [CmdInitAudio])
     ++ commands (dispatch st tone_now t v params))%list.
Proof.
  unfold triggerSound. destruct (dispatch st tone_now t v params); reflexivity.
Qed.

Lemma midi_cmds_nil (m : Midi) (now v : Q) (params : SoundParams) :
  midi_cmds m now v params = [] <-> has_notes m = false.
Proof.
  unfold midi_cmds, has_notes. induction (tracks m) as [|track rest IH]; simpl.
  - tauto.
  - destruct track as [|n track]; simpl; [exact IH |].
    split; discriminate.
Qed.

Lemma midi_cmds_shape (m : Midi) (now v : Q) (params : SoundParams) (c : AudioCmd) :
  In c (midi_cmds m now v params) ->
  exists n, c = CmdMidiNote (transposed (mn_name n) params) (mn_duration n)
                  (now + mn_time n) (mn_velocity n * normalizeVelocity v).
Proof.
  unfold midi_cmds. intros Hin. apply List.in_flat_map in Hin as [track [_ Hin]].
  apply List.in_map_iff in Hin as [n [<- _]]. eauto.
Qed.

Lemma returns_synth_shot st s note dur params v :
  returns (synth_shot st s note dur params v) = true.
Proof. unfold synth_shot. destruct (synths st s); reflexivity. Qed.

Lemma returns_with_kit st name fade dur v params :
  returns (with_kit st name fade dur v params) = false <-> defaultKit st = None.
Proof.
  unfold with_kit. destruct (defaultKit st); simpl; split; congruence.
Qed.

Lemma returns_custom_shot st tone_now v params :
  returns (custom_shot st tone_now v params) = false <->
  exists n m, triggerNote params = Some n /\ customMidi st !! pretty n = Some m /\
              has_notes m = true /\ synths st midiSynth = false.
Proof.
  unfold custom_shot. destruct (triggerNote params) as [n|].
  2:{ simpl. split; [discriminate | intros (n & m & H & _); discriminate]. }
  destruct (customMidi st !! pretty n) as [m|] eqn:Hm.
  - set (now := match time params with Some t => t | None => tone_now end).
    pose proof (midi_cmds_nil m now v params) as Hnil.
    destruct (midi_cmds m now v params) as [|c cs] eqn:Hc.
    + simpl. split; [discriminate |].
      intros (n' & m' & Hn & Hm' & Hnotes & _). injection Hn as <-.
      rewrite Hm in Hm'. injection Hm' as <-.
      rewrite (proj1 Hnil eq_refl) in Hnotes. discriminate.
    + assert (Hnotes : has_notes m = true).
      { destruct (has_notes m); [reflexivity |]. destruct Hnil as [_ H].
        specialize (H eq_refl). discriminate. }
      destruct (synths st midiSynth) eqn:Hs; simpl.
      * split; [discriminate |].
        intros (n' & m' & _ & _ & _ & Hfalse). discriminate.
      * split; [| reflexivity]. intros _. exists n, m. auto.
  - destruct (customPlayers st !! pretty n) as [pl|]; [destruct (pl_loaded pl) |]; simpl;
      (split; [discriminate |]);
      intros (n' & m' & Hn & Hm' & _); injection Hn as <-; congruence.
Qed.

(** X2.  [triggerSound] throws into its caller in exactly two situations:
    the instrument is one of the seven default-kit sounds and the kit has
    not been created yet, or the instrument is [custom], the trigger note
    has a stored pattern with at least one note, and the MIDI synth has
    not been created.  In every other case it returns. *)
Theorem triggerSound_throws_iff st tone_now t v params :
  returns (triggerSound st tone_now t v params) = false <->
  (uses_kit t = true /\ defaultKit st = None) \/
  (t = custom /\
   exists n m, triggerNote params = Some n /\ customMidi st !! pretty n = Some m /\
               has_notes m = true /\ synths st midiSynth = false).
Proof.
  rewrite returns_triggerSound.
  destruct t; simpl dispatch; simpl uses_kit;
    try (rewrite returns_with_kit; split;
         [ intros H; left; auto
         | intros [[_ H] | [H _]]; [exact H | discriminate] ]);
    try (rewrite returns_synth_shot; split;
         [ discriminate
         | intros [[H _] | [H _]]; discriminate ]).
  rewrite returns_custom_shot. split.
  - intros H. right. auto.
  - intros [[H _] | [_ H]]; [discriminate | exact H].
Qed.

Lemma triggerSound_throws_iff_witness :
  returns (triggerSound Audio.initial 0 kick 100 no_params) = false /\
  returns (triggerSound Audio.initial 0 cowbell 100 no_params) <> false.
Proof.
  split.
  - apply (triggerSound_throws_iff Audio.initial 0 kick 100 no_params).
    left. split; reflexivity.
  - intros H.
    apply (triggerSound_throws_iff Audio.initial 0 cowbell 100 no_params) in H.
    destruct H as [[H _] | [H _]]; discriminate.
Defined.

Lemma effectiveVel_pos (v : Q) (params : SoundParams) : 0 < effectiveVel v params.
Proof.
  eapply Qlt_le_trans; [| apply effectiveVel_floor]. reflexivity.
Qed.

Lemma kit_shot_cases kit name fade dur v params c :
  In c (kit_shot kit name fade dur v params) ->
  c = CmdPlayerRate (KitTarget name) (pitch_semis params) \/
  c = CmdPlayerStop (KitTarget name) (time params) \/
  (exists f, c = CmdPlayerFadeOut (KitTarget name) f) \/
  c = CmdPlayerStart (KitTarget name) (time params) 0 dur \/
  c = CmdPlayerVolume (KitTarget name) (effectiveVel v params).
Proof.
  unfold kit_shot. destruct (kit !! name) as [p|]; [| intros []].
  intros [<- | Hin]; [auto |].
  apply in_app_or in Hin as [Hin | Hin].
  { destruct (kp_started p); [destruct Hin as [<- | []]; auto | destruct Hin]. }
  apply in_app_or in Hin as [Hin | Hin].
  { destruct fade; [destruct Hin as [<- | []]; eauto 6 | destruct Hin]. }
  destruct (kp_loaded p); [| destruct Hin].
  destruct Hin as [<- | [<- | []]]; auto.
Qed.

(** The commands of a call, by the shape of the instrument. *)
Lemma dispatch_cases st tone_now t v params c :
  In c (commands (dispatch st tone_now t v params)) ->
  (exists tg, c = CmdPlayerRate tg (pitch_semis params)) \/
  (exists tg, c = CmdPlayerStop tg (time params)) \/
  (exists tg f, c = CmdPlayerFadeOut tg f) \/
  (exists tg dur, c = CmdPlayerStart tg (time params) 0 dur) \/
  (exists tg, c = CmdPlayerVolume tg (effectiveVel v params)) \/
  (exists s note dur k, c = CmdSynth s note dur (time params) (effectiveVel v params * k)
                        /\ 0 < k) \/
  (exists s note dur, c = CmdSynth s note dur (time params) (effectiveVel v params)) \/
  (exists note dur tm vel, c = CmdMidiNote note dur tm vel) \/
  (exists msg, c = CmdWarn msg).
Proof.
  assert (Hkit : forall name fade dur,
             In c (commands (with_kit st name fade dur v params)) ->
             (exists tg, c = CmdPlayerRate tg (pitch_semis params)) \/
             (exists tg, c = CmdPlayerStop tg (time params)) \/
             (exists tg f, c = CmdPlayerFadeOut tg f) \/
             (exists tg dur, c = CmdPlayerStart tg (time params) 0 dur) \/
             (exists tg, c = CmdPlayerVolume tg (effectiveVel v params)) \/
             (exists s note dur k, c = CmdSynth s note dur (time params)
                                         (effectiveVel v params * k) /\ 0 < k) \/
             (exists s note dur, c = CmdSynth s note dur (time params)
                                       (effectiveVel v params)) \/
             (exists note dur tm vel, c = CmdMidiNote note dur tm vel) \/
             (exists msg, c = CmdWarn msg)).
  { intros name fade dur. unfold with_kit.
    destruct (defaultKit st) as [kit|]; [| intros []]. simpl. intros Hin.
    apply kit_shot_cases in Hin as [-> | [-> | [[f ->] | [-> | ->]]]]; eauto 12. }
  destruct t; simpl dispatch; try apply Hkit;
    try (unfold synth_shot; destruct (synths st _); simpl;
         [intros [<- | []] | intros []];
         first [ do 6 right; left; do 3 eexists; reflexivity
               | do 5 right; left; do 4 eexists; split; [reflexivity | reflexivity] ]).
  unfold custom_shot. destruct (triggerNote params) as [n|]; [| intros []].
  destruct (customMidi st !! pretty n) as [m|].
  - destruct (midi_cmds m _ v params) as [|c0 cs] eqn:Hc; [intros [] |].
    destruct (synths st midiSynth); [| intros []]. intros Hin.
    change (In c (c0 :: cs)) in Hin. rewrite <- Hc in Hin.
    apply midi_cmds_shape in Hin as [note ->]. do 7 right. left. eauto.
  - destruct (customPlayers st !! pretty n) as [pl|]; [| intros []].
    destruct (pl_loaded pl); simpl.
    + intros [<- | [<- | [<- | []]]]; eauto 12.
    + intros [<- | []]. do 8 right. eauto.
Qed.

(** X3.  Every gain that a call of [triggerSound] sets on a player, and
    every velocity it gives to a drum synthesiser, is strictly positive,
    whatever velocity and volume it was called with (a player gain is at
    least 1/1000): the conversion to decibels never sees zero. *)
Theorem trigger_levels_positive st tone_now t v params c g :
  In c (commands (triggerSound st tone_now t v params)) ->
  cmd_level c = Some g ->
  0 < g /\ (forall tg, c = CmdPlayerVolume tg g -> 1 # 1000 <= g).
Proof.
  rewrite commands_triggerSound. intros Hin Hg.
  apply in_app_or in Hin as [Hin | Hin].
  { destruct (isInitialized st); [destruct Hin |].
    destruct Hin as [<- | []]. discriminate. }
  apply dispatch_cases in Hin
    as [[tg ->] | [[tg ->] | [(tg & f & ->) | [(tg & d & ->) | [[tg ->] |
        [(s & n & d & k & -> & Hk) | [(s & n & d & ->) | [(n & d & tm & vel & ->)
        | [msg ->]]]]]]]]]; simpl in Hg; try discriminate; injection Hg as <-.
  - split; [apply effectiveVel_pos |]. intros _ _. apply effectiveVel_floor.
  - split; [| intros tg; discriminate].
    rewrite <- (Qmult_0_l k). apply Qmult_lt_compat_r; [exact Hk | apply effectiveVel_pos].
  - split; [apply effectiveVel_pos | intros tg; discriminate].
Qed.

Lemma trigger_levels_positive_witness :
  0 < effectiveVel 0 (mkParams None (Some 0) None None None) /\
  1 # 1000 <= effectiveVel 0 (mkParams None (Some 0) None None None).
Proof.
  destruct (trigger_levels_positive Scenario.ready 0 kick 0
              (mkParams None (Some 0) None None None)
              (CmdPlayerVolume (KitTarget "kick")
                 (effectiveVel 0 (mkParams None (Some 0) None None None)))
              (effectiveVel 0 (mkParams None (Some 0) None None None)))
    as [Hpos Hfloor].
  - vm_compute. auto 10.
  - reflexivity.
  - split; [exact Hpos | exact (Hfloor _ eq_refl)].
Defined.

(** X4.  Every player start or stop and every drum-synth trigger that a
    call of [triggerSound] issues carries exactly the [time] the call was
    given (none when it was given none). *)
Theorem trigger_forwards_time st tone_now t v params c tm :
  In c (commands (triggerSound st tone_now t v params)) ->
  cmd_time c = Some tm -> tm = time params.
Proof.
  rewrite commands_triggerSound. intros Hin Htm.
  apply in_app_or in Hin as [Hin | Hin].
  { destruct (isInitialized st); [destruct Hin |].
    destruct Hin as [<- | []]. discriminate. }
  apply dispatch_cases in Hin
    as [[tg ->] | [[tg ->] | [(tg & f & ->) | [(tg & d & ->) | [[tg ->] |
        [(s & n & d & k & -> & Hk) | [(s & n & d & ->) | [(n & d & tm' & vel & ->)
        | [msg ->]]]]]]]]]; simpl in Htm; try discriminate; congruence.
Qed.

Lemma trigger_forwards_time_witness :
  Some (5 # 2) = time (mkParams None None None None (Some (5 # 2))).
Proof.
  apply (trigger_forwards_time Scenario.ready 0 tom 100
           (mkParams None None None None (Some (5 # 2)))
           (CmdSynth tomSynth (Some (mkNote "C2" 0)) "8n" (Some (5 # 2))
              (effectiveVel 100 (mkParams None None None None (Some (5 # 2)))))).
  - left. reflexivity.
  - reflexivity.
Defined.

(** X5.  The [pan] parameter of [triggerSound] has no effect: the call
    issues the same commands whatever pan it is given. *)
Theorem trigger_ignores_pan st tone_now t v params p :
  triggerSound st tone_now t v (set_pan p params)
  = triggerSound st tone_now t v params.
Proof. destruct t; reflexivity. Qed.

(** X6.  The pitch offset acts on the kit players, the tom, the cowbell
    and custom sounds only: for every other instrument [triggerSound]
    issues the same commands whatever pitch it is given. *)
Theorem trigger_fixed_pitch st tone_now t v params p :
  reads_pitch t = false ->
  triggerSound st tone_now t v (set_pitch p params)
  = triggerSound st tone_now t v params.
Proof. destruct t; simpl; intros H; try discriminate; reflexivity. Qed.

Lemma trigger_fixed_pitch_witness :
  triggerSound Scenario.ready 0 crash 100 (set_pitch (Some 7%Z) no_params)
  = triggerSound Scenario.ready 0 crash 100 no_params.
Proof. apply trigger_fixed_pitch. reflexivity. Defined.

(** A pitched instrument does react: the tom an octave up is another note. *)
Example tom_reads_pitch :
  triggerSound Scenario.ready 0 tom 100 (set_pitch (Some 12%Z) no_params)
  <> triggerSound Scenario.ready 0 tom 100 no_params.
Proof. discriminate. Qed.

End Trigger.


Section RegistryMore.
Import Audio AudioView.

Lemma str_app_cons (c : ascii) (s t : string) : String c s ++ t = String c (s ++ t).
Proof. reflexivity. Qed.

Lemma str_app_nil_l (s : string) : "" ++ s = s.
Proof. reflexivity. Qed.

Lemma str_app_nil_r (s : string) : s ++ "" = s.
Proof.
  induction s as [|c s IH]; [reflexivity |]. now rewrite str_app_cons, IH.
Qed.

Lemma str_app_assoc (a b c : string) : (a ++ b) ++ c = a ++ (b ++ c).
Proof.
  induction a as [|x a IH]; [reflexivity |]. now rewrite !str_app_cons, IH.
Qed.

Lemma after_last_dot_dotless (e acc : string) :
  dotless e = true -> after_last_dot e acc = acc ++ e.
Proof.
  revert acc. induction e as [|c e IH]; intros acc Hd; simpl in *.
  - symmetry. apply str_app_nil_r.
  - apply andb_true_iff in Hd as [Hc He]. apply negb_true_iff in Hc. rewrite Hc.
    rewrite IH by exact He. rewrite str_app_assoc. reflexivity.
Qed.

Lemma after_last_dot_suffix (s e acc : string) :
  dotless e = true -> after_last_dot (s ++ String "."%char e) acc = e.
Proof.
  revert acc. induction s as [|c s IH]; intros acc Hd.
  - rewrite str_app_nil_l. simpl. now apply after_last_dot_dotless.
  - rewrite str_app_cons. simpl.
    destruct (Ascii.eqb c "."%char); apply IH; exact Hd.
Qed.

(** X7.  The extension by which [loadUserSample] classifies a source is
    what follows the last dot, in lower case: a name that ends in a dot
    and a dotless suffix has that suffix, lowered, as its extension,
    whatever comes before; a name without any dot is its own extension. *)
Theorem extension_is_lowered_suffix (s e : string) :
  dotless e = true ->
  extension (s ++ String "."%char e) = toLowerCase e /\
  extension e = toLowerCase e.
Proof.
  intros Hd. unfold extension. split.
  - now rewrite after_last_dot_suffix.
  - now rewrite after_last_dot_dotless.
Qed.

Lemma extension_is_lowered_suffix_witness :
  extension ("/loops/My.Beat v2" ++ String "."%char "MID") = "mid" /\
  extension "MID" = "mid".
Proof.
  exact (extension_is_lowered_suffix "/loops/My.Beat v2" "MID" eq_refl).
Defined.




(** X9.  What a pad holds when a load for it has completed.  It holds a
    player exactly when the extension is neither [prt_omn] nor [mid], the
    reverb exists (the module is initialised) and the buffer decoded; the
    player is then a fresh, loaded one for the cleaned URL.  It holds a
    pattern exactly when the extension is [mid] and the file was fetched
    and parsed.  In every other case, a failed load included, the pad is
    left empty, whatever it held before. *)
Theorem load_outcome (env : LoadEnv) (noteId : Z) (fileUrl : string) (st : AudioState) :
  let st' := loadUserSample env noteId fileUrl st in
  let ext := extension fileUrl in
  let url := cleanUrl env fileUrl in
  (forall pl, customPlayers st' !! pretty noteId = Some pl <->
     ext <> "prt_omn" /\ ext <> "mid" /\ is_Some (reverb st) /\
     load_audio env url = true /\ pl = mkPlayer (next_player st) url true) /\
  (forall m, customMidi st' !! pretty noteId = Some m <->
     ext <> "prt_omn" /\ ext = "mid" /\ fetch_midi env url = Some m).
Proof.
  intros st' ext url. unfold st', loadUserSample, load_begin. fold ext. fold url.
  destruct (String.eqb ext "prt_omn") eqn:Hp.
  { apply String.eqb_eq in Hp. simpl. rewrite !lookup_delete_eq.
    split; intros x; (split; [discriminate | intros [H _]; congruence]). }
  apply String.eqb_neq in Hp.
  destruct (String.eqb ext "mid") eqn:Hm.
  { apply String.eqb_eq in Hm. simpl.
    destruct (fetch_midi env url) as [m|] eqn:Hf; simpl;
      rewrite ?lookup_delete_eq, ?lookup_insert_eq; split; intros x.
    - split; [discriminate | intros (_ & H & _); congruence].
    - split; [intros [= <-]; auto | intros (_ & _ & [= <-]); reflexivity].
    - split; [discriminate | intros (_ & H & _); congruence].
    - split; [discriminate | intros (_ & _ & H); discriminate]. }
  apply String.eqb_neq in Hm.
  destruct (reverb st) as [w|] eqn:Hr; simpl.
  - destruct (load_audio env url) eqn:Hl; simpl;
      rewrite ?lookup_delete_eq, ?lookup_insert_eq; split; intros x.
    + split; [intros [= <-]; repeat split; eauto | intros (_ & _ & _ & _ & ->); reflexivity].
    + split; [discriminate | intros (_ & H & _); congruence].
    + split; [discriminate | intros (_ & _ & _ & H & _); discriminate].
    + split; [discriminate | intros (_ & H & _); congruence].
  - rewrite !lookup_delete_eq. split; intros x.
    + split; [discriminate | intros (_ & _ & [w Hw] & _); discriminate].
    + split; [discriminate | intros (_ & H & _); congruence].
Qed.

Lemma load_outcome_witness :
  customPlayers (loadUserSample Scenario.audio_world 40 "/a.wav" Scenario.ready)
    !! pretty 40%Z = Some (mkPlayer 0 "/a.wav" true) /\
  customMidi (loadUserSample Scenario.mixed_world 40 "/a.MID" Scenario.ready)
    !! pretty 40%Z = Some Scenario.one_note.
Proof.
  destruct (load_outcome Scenario.audio_world 40 "/a.wav" Scenario.ready) as [Hp _].
  destruct (load_outcome Scenario.mixed_world 40 "/a.MID" Scenario.ready) as [_ Hm].
  split.
  - apply Hp. repeat split; try discriminate; vm_compute; eauto.
  - apply Hm. repeat split; try discriminate; reflexivity.
Defined.

(** X10.  A load for one pad leaves the other pads alone: the player and
    the pattern stored for any other pad are the same afterwards, and a
    player stored for another pad is still live. *)
Theorem load_other_pads (env : LoadEnv) (noteId other : Z) (fileUrl : string)
    (st : AudioState) :
  registry_ok st -> other <> noteId ->
  let st' := loadUserSample env noteId fileUrl st in
  customPlayers st' !! pretty other = customPlayers st !! pretty other /\
  customMidi st' !! pretty other = customMidi st !! pretty other /\
  (forall pl, customPlayers st !! pretty other = Some pl -> live st' (pl_id pl)).
Proof.
  intros Hok Hne st'.
  assert (Hkey : pretty noteId <> (pretty other : string)).
  { intros Heq. apply Hne. symmetry. exact (pretty_Z_inj _ _ Heq). }
  pose proof (loadUserSample_cases env noteId fileUrl st) as Hcases. fold st' in Hcases.
  assert (Hp : customPlayers st' !! pretty other = customPlayers st !! pretty other).
  { destruct Hcases as [next _ -> | m -> | url ->]; simpl;
      rewrite ?lookup_insert_ne by exact Hkey; apply lookup_delete_ne; exact Hkey. }
  assert (Hm : customMidi st' !! pretty other = customMidi st !! pretty other).
  { destruct Hcases as [next _ -> | m -> | url ->]; simpl;
      rewrite ?lookup_insert_ne by exact Hkey; apply lookup_delete_ne; exact Hkey. }
  split; [exact Hp | split; [exact Hm |]].
  intros pl Hpl. rewrite <- Hp in Hpl.
  exact (stored_live st' (loaded_as_ok st _ st' Hok Hcases) _ _ Hpl).
Qed.

Lemma load_other_pads_witness :
  let st := loadUserSample Scenario.audio_world 40 "/a.wav" Scenario.ready in
  let st' := loadUserSample Scenario.audio_world 41 "/b.wav" st in
  customPlayers st' !! pretty 40%Z = customPlayers st !! pretty 40%Z /\
  live st' 0.
Proof.
  intros st st'.
  assert (Hok : registry_ok st).
  { apply (loaded_as_ok Scenario.ready (pretty 40%Z)); [exact registry_ok_ready |].
    apply loadUserSample_cases. }
  destruct (load_other_pads Scenario.audio_world 41 40 "/b.wav" st Hok) as (Hp & _ & Hl).
  - discriminate.
  - split; [exact Hp |]. apply (Hl (mkPlayer 0 "/a.wav" true)). reflexivity.
Defined.

End RegistryMore.


Section LoadAndPlay.
Import Audio AudioView.

Lemma custom_shot_commands (st : AudioState) (tone_now v : Q) (params : SoundParams)
    (n : Z) :
  triggerNote params = Some n ->
  (forall m, customMidi st !! pretty n = Some m -> synths st midiSynth = true ->
     custom_shot st tone_now v params
     = Returned (midi_cmds m (match time params with Some t => t | None => tone_now end)
                   v params)) /\
  (forall pl, customMidi st !! pretty n = None ->
     customPlayers st !! pretty n = Some pl -> pl_loaded pl = true ->
     custom_shot st tone_now v params
     = Returned [CmdPlayerRate (CustomTarget (pretty n)) (pitch_semis params);
                 CmdPlayerStart (CustomTarget (pretty n)) (time params) 0 None;
                 CmdPlayerVolume (CustomTarget (pretty n)) (effectiveVel v params)]) /\
  (customMidi st !! pretty n = None -> customPlayers st !! pretty n = None ->
     custom_shot st tone_now v params = Returned []).
Proof.
  intros Hn. unfold custom_shot. rewrite Hn. repeat split.
  - intros m -> ->. destruct (midi_cmds m _ v params); reflexivity.
  - intros pl -> -> ->. reflexivity.
  - intros -> ->. reflexivity.
Qed.

(** X11.  Load, then hit the pad.  Once a load for a pad has completed,
    a [custom] trigger for that pad returns normally and plays what the
    load stored: the new player, started at the given time with the rate
    of the pitch offset and the gain of the velocity; or every note of the
    new pattern, on the MIDI synth; or nothing at all when the load stored
    nothing (a patch file, or a load that failed). *)
Theorem load_then_trigger (env : LoadEnv) (noteId : Z) (fileUrl : string)
    (st : AudioState) (tone_now v : Q) (params : SoundParams) :
  triggerNote params = Some noteId ->
  synths st midiSynth = true ->
  let st' := loadUserSample env noteId fileUrl st in
  let out := triggerSound st' tone_now custom v params in
  let pre := if isInitialized st then [] else [CmdInitAudio] in
  returns out = true /\
  (is_Some (customPlayers st' !! pretty noteId) ->
   commands out
   = (pre ++ [CmdPlayerRate (CustomTarget (pretty noteId)) (pitch_semis params);
              CmdPlayerStart (CustomTarget (pretty noteId)) (time params) 0 None;
              CmdPlayerVolume (CustomTarget (pretty noteId)) (effectiveVel v params)])%list) /\
  (forall m, customMidi st' !! pretty noteId = Some m ->
   commands out
   = (pre ++ midi_cmds m (match time params with Some t => t | None => tone_now end)
               v params)%list) /\
  (entries st' noteId = 0%nat -> commands out = (pre ++ [])%list).
Proof.
  intros Hn Hsynth st' out pre.
  pose proof (loadUserSample_cases env noteId fileUrl st) as Hcases. fold st' in Hcases.
  assert (Hinit : isInitialized st' = isInitialized st)
    by (destruct Hcases as [next _ -> | m -> | url ->]; reflexivity).
  assert (Hs : synths st' midiSynth = true)
    by (destruct Hcases as [next _ -> | m -> | url ->]; exact Hsynth).
  destruct (custom_shot_commands st' tone_now v params noteId Hn) as (Hmidi & Hplayer & Hnone).
  unfold out, triggerSound, pre. rewrite Hinit. simpl dispatch.
  destruct Hcases as [next _ Hst | m Hst | url Hst].
  - assert (Hp : customPlayers st' !! pretty noteId = None)
      by (rewrite Hst; simpl; apply lookup_delete_eq).
    assert (Hm : customMidi st' !! pretty noteId = None)
      by (rewrite Hst; simpl; apply lookup_delete_eq).
    rewrite (Hnone Hm Hp). simpl. repeat split.
    + rewrite Hp. intros [x Hx]. discriminate.
    + intros m Hm'. congruence.
  - assert (Hp : customPlayers st' !! pretty noteId = None)
      by (rewrite Hst; simpl; apply lookup_delete_eq).
    assert (Hm : customMidi st' !! pretty noteId = Some m)
      by (rewrite Hst; simpl; apply lookup_insert_eq).
    rewrite (Hmidi m Hm Hs). simpl. repeat split.
    + rewrite Hp. intros [x Hx]. discriminate.
    + intros m' Hm'. congruence.
    + unfold entries. rewrite Hp, Hm. discriminate.
  - assert (Hp : customPlayers st' !! pretty noteId
                 = Some (mkPlayer (next_player st) url true))
      by (rewrite Hst; simpl; apply lookup_insert_eq).
    assert (Hm : customMidi st' !! pretty noteId = None)
      by (rewrite Hst; simpl; apply lookup_delete_eq).
    rewrite (Hplayer _ Hm Hp eq_refl). simpl. repeat split.
    + intros m' Hm'. congruence.
    + unfold entries. rewrite Hp, Hm. discriminate.
Qed.

Lemma load_then_trigger_witness :
  let params := mkParams (Some 2%Z) None None (Some 40%Z) (Some (3 # 1)%Q) in
  commands (triggerSound (loadUserSample Scenario.audio_world 40 "/a.wav" Scenario.ready)
              0 custom 100 params)
  = [CmdPlayerRate (CustomTarget (pretty 40%Z)) 2;
     CmdPlayerStart (CustomTarget (pretty 40%Z)) (Some (3 # 1)%Q) 0 None;
     CmdPlayerVolume (CustomTarget (pretty 40%Z)) (effectiveVel 100 params)].
Proof.
  intros params.
  destruct (load_then_trigger Scenario.audio_world 40 "/a.wav" Scenario.ready 0 100 params
              eq_refl eq_refl) as (_ & Hplay & _).
  apply Hplay. vm_compute. eauto.
Defined.

(** X12.  Which pan sliders reach a panner.  After [initAudio], a pan
    update under the name of an instrument is stored when the instrument
    is the tom, crash, splash, china, ride, cowbell or shaker, and changes
    nothing at all for every other instrument (the kit sounds, rimshot,
    tambourine, the congas and custom sounds have no panner of their
    name). *)
Theorem pan_reaches_panner (t : InstrumentType) (value : Q) (loaded : bool)
    (st : AudioState) :
  isInitialized st = false ->
  let st1 := initAudio_done loaded st in
  (has_panner t = true ->
   exists st', updatePan (instrument_name t) value st1 = Some st' /\
               panners st' !! instrument_name t = Some value) /\
  (has_panner t = false -> updatePan (instrument_name t) value st1 = Some st1).
Proof.
  intros Hinit st1. unfold st1, initAudio_done. rewrite Hinit. split; intros Ht.
  - apply updatePan_lookup. simpl panners. destruct t; try discriminate Ht; vm_compute; eauto.
  - unfold updatePan. simpl panners.
    destruct t; try discriminate Ht; reflexivity.
Qed.

Lemma pan_reaches_panner_witness :
  (exists st', updatePan "crash" (1 # 2) Scenario.ready = Some st' /\
               panners st' !! "crash" = Some (1 # 2)%Q) /\
  updatePan "snare" (1 # 2) Scenario.ready = Some Scenario.ready.
Proof.
  split.
  - apply (pan_reaches_panner crash (1 # 2) true Audio.initial); reflexivity.
  - apply (pan_reaches_panner snare (1 # 2) true Audio.initial); reflexivity.
Defined.

End LoadAndPlay.


(** * Further properties of the DrumKit component *)

Section TimelinesMore.
Import Kit.








End TimelinesMore.


Section RecorderMore.
Import Kit KitUI.





(** X17.  With a clock that does not run backwards (every hit is read
    between the start and the stop reading), the take a session seals
    keeps the notes and velocities of the hits in their order, and every
    timestamp in it lies between zero and the duration of the take. *)
Theorem take_within_duration (t0 c0 t1 c1 : Z) (inputs : list Input) (st : State) :
  isRecording st = false -> inputs <> [] ->
  Forall (fun i => t0 <= in_now i <= t1) inputs ->
  exists take,
    recordings (toggleRecording t1 c1 (feed inputs (toggleRecording t0 c0 st)))
    = take :: recordings st /\
    map (fun e => (ev_note e, ev_velocity e)) (rec_events take)
    = map (fun i => (in_note i, in_velocity i)) inputs /\
    Forall (fun e => 0 <= ev_timestamp e <= rec_duration take) (rec_events take).
Proof.
  intros Hidle Hne Hclock. eexists. split; [apply recorded_session; assumption |].
  simpl. split.
  - rewrite map_map. reflexivity.
  - apply Forall_map. eapply Forall_impl; [exact Hclock |].
    intros i [Hlo Hhi]. simpl. lia.
Qed.

Lemma take_within_duration_witness :
  exists take,
    recordings Scenario.session = take :: recordings Kit.initial /\
    map (fun e => (ev_note e, ev_velocity e)) (rec_events take)
    = [(60, 100%Q); (62, 64%Q)] /\
    Forall (fun e => 0 <= ev_timestamp e <= rec_duration take) (rec_events take).
Proof.
  apply (take_within_duration 1000 1000 2000 2001 Scenario.hits Kit.initial).
  - reflexivity.
  - discriminate.
  - repeat constructor; simpl; lia.
Defined.

Lemma pushHistory_take (e : MidiEvent) (a h : list MidiEvent) :
  take 3 (a ++ pushHistory e h) = take 3 (a ++ e :: h).
Proof.
  unfold pushHistory. rewrite !take_app, take_take.
  f_equal. f_equal. lia.
Qed.

Lemma historyAfter_spec (inputs : list Input) (h : list MidiEvent) :
  (length h <= 3)%nat ->
  historyAfter inputs h = take 3 (rev (map absolute inputs) ++ h).
Proof.
  revert h. induction inputs as [|i rest IH]; intros h Hlen.
  - simpl. symmetry. apply take_ge. exact Hlen.
  - simpl. rewrite IH.
    + rewrite pushHistory_take, <- app_assoc. reflexivity.
    + unfold pushHistory. rewrite length_take. lia.
Qed.

(** X18.  The history strip never shows more than three events: after
    any sequence of pad hits it holds the latest hits, newest first, three
    at most, each with its absolute clock reading. *)
Theorem history_keeps_last_three (inputs : list Input) :
  historyAfter inputs [] = take 3 (rev (map absolute inputs)) /\
  (length (historyAfter inputs []) <= 3)%nat.
Proof.
  assert (H : historyAfter inputs [] = take 3 (rev (map absolute inputs))).
  { rewrite historyAfter_spec by (simpl; lia). now rewrite app_nil_r. }
  split; [exact H |]. rewrite H, length_take. lia.
Qed.

End RecorderMore.

Section MapperMore.
Import Kit KitUI.

Lemma quiet_step_mappings (st st' : State) :
  quiet_step st st' -> mappings st' = mappings st.
Proof.
  intros Hstep. destruct Hstep; simpl.
  - unfold onNote. simpl. destruct (isRecordingRef st); reflexivity.
  - unfold toggleRecording. destruct (negb (isRecording st)); reflexivity.
  - unfold playBackRecording. destruct (activeRecordingLoops st !! rec_id rec); reflexivity.
  - unfold fire_cleanup. destruct (scheduledOnce st !! i) as [c|]; [| reflexivity].
    unfold run_cleanup. simpl.
    destruct (activeRecordingLoops st !! cl_take c) as [p|]; [| reflexivity].
    destruct (Nat.eqb p (cl_part c)); reflexivity.
  - reflexivity.
  - unfold deleteRecording. destruct (activeRecordingLoops st !! id); reflexivity.
Qed.

(** X19.  A mapping stays until it is edited.  After
    [updateMapping(note, instrument, pitch)], whatever pad hits, recording
    toggles, playbacks, cleanups, stop-alls and take deletions follow, a
    hit on the note triggers that instrument at that pitch (with the
    volume and pan the note had before the edit), and a take that holds
    the note plays it back with that instrument and pitch. *)
Theorem mapping_persists (note : Z) (ins : Audio.InstrumentType) (new_pitch : Z)
    (st st' : State) (velocity time : Q) :
  rtc quiet_step (updateMapping note ins new_pitch st) st' ->
  live_dispatch st' note velocity
  = Audio.mkDispatch ins velocity
      {| Audio.pitch := Some new_pitch; Audio.volume := (mappings st !! note) ≫= volume;
         Audio.pan := (mappings st !! note) ≫= pan;
         Audio.triggerNote := Some note; Audio.time := None |} /\
  part_callback (mappings st') time (mkPartEvent 0 note velocity)
  = [Audio.mkDispatch ins velocity
       {| Audio.pitch := Some new_pitch; Audio.volume := (mappings st !! note) ≫= volume;
          Audio.pan := (mappings st !! note) ≫= pan;
          Audio.triggerNote := Some note; Audio.time := Some time |}].
Proof.
  intros Hsteps.
  assert (Hm : mappings st' = mappings (updateMapping note ins new_pitch st)).
  { revert st' Hsteps. apply rtc_ind_r; [reflexivity |].
    intros y z _ Hstep IH. rewrite (quiet_step_mappings y z Hstep). exact IH. }
  unfold live_dispatch, part_callback. rewrite Hm. simpl.
  rewrite lookup_insert_eq. split; reflexivity.
Qed.

Lemma mapping_persists_witness :
  Audio.d_type (live_dispatch
                  (playBackRecording 0 Scenario.take1
                     (toggleRecording 5000 5000
                        (updateMapping 36 Audio.snare 2 Scenario.session)))
                  36 100)
  = Audio.snare.
Proof.
  destruct (mapping_persists 36 Audio.snare 2 Scenario.session
              (playBackRecording 0 Scenario.take1
                 (toggleRecording 5000 5000
                    (updateMapping 36 Audio.snare 2 Scenario.session)))
              100 0) as [H _].
  - eapply rtc_r; [eapply rtc_r; [apply rtc_refl |] |].
    + apply (quiet_record 5000 5000).
    + apply (quiet_play 0%Q Scenario.take1).
  - rewrite H. reflexivity.
Defined.

(** The pitch slider changes the pitch only: on a mapped pad the
    instrument, volume and pan stay as they are; on a pad without a
    mapping it creates a tom mapping; the other pads are not touched. *)
Theorem pitchSlider_keeps_instrument (note value : Z) (st : State) :
  (forall old, mappings st !! note = Some old ->
     mappings (pitchSlider note value st) !! note
     = Some (mkMapping (instrument old) value (volume old) (pan old))) /\
  (mappings st !! note = None ->
     mappings (pitchSlider note value st) !! note
     = Some (mkMapping Audio.tom value None None)) /\
  (forall other, other <> note ->
     mappings (pitchSlider note value st) !! other = mappings st !! other).
Proof.
  unfold pitchSlider, updateMapping. simpl. repeat split.
  - intros old ->. rewrite lookup_insert_eq. reflexivity.
  - intros ->. rewrite lookup_insert_eq. reflexivity.
  - intros other Hne. apply lookup_insert_ne. congruence.
Qed.

Lemma pitchSlider_keeps_instrument_witness :
  mappings (pitchSlider 60 (-3) Scenario.mapped_session) !! 60
  = Some (mkMapping Audio.snare (-3) None None) /\
  mappings (pitchSlider 99 4 Scenario.mapped_session) !! 99
  = Some (mkMapping Audio.tom 4 None None) /\
  mappings (pitchSlider 99 4 Scenario.mapped_session) !! 60
  = mappings Scenario.mapped_session !! 60.
Proof.
  destruct (pitchSlider_keeps_instrument 60 (-3) Scenario.mapped_session) as (H1 & _ & _).
  destruct (pitchSlider_keeps_instrument 99 4 Scenario.mapped_session) as (_ & H2 & H3).
  split; [apply (H1 (mkMapping Audio.snare 2 None None)); reflexivity |].
  split; [apply H2; reflexivity | apply H3; discriminate].
Defined.

(** X20.  Saving a kit and loading it back restores the mapping table.
    [saveKit] with a non-empty name puts a preset holding the current
    table in front of the list (a cancelled or empty prompt changes
    nothing); a confirmed [loadKit] of that preset makes the table equal
    to the saved one, whatever edits were made in between, and leaves the
    takes and the playback state alone; a declined one changes nothing. *)
Theorem save_then_load (name : string) (now : Z) (presets : list Preset)
    (st st' : State) :
  name <> "" ->
  saveKit (Some name) now (mappings st) presets
  = mkPreset (pretty now) name (mappings st) :: presets /\
  saveKit None now (mappings st) presets = presets /\
  saveKit (Some "") now (mappings st) presets = presets /\
  (forall p, head (saveKit (Some name) now (mappings st) presets) = Some p ->
     mappings (loadKit true p st') = mappings st /\
     recordings (loadKit true p st') = recordings st' /\
     activeRecordingLoops (loadKit true p st') = activeRecordingLoops st' /\
     loadKit false p st' = st').
Proof.
  intros Hname. unfold saveKit.
  destruct (String.eqb name "") eqn:He; [apply String.eqb_eq in He; contradiction |].
  repeat split; intros; simpl in *; try reflexivity;
    match goal with H : Some _ = Some _ |- _ => injection H as <- end; reflexivity.
Qed.

Lemma save_then_load_witness :
  mappings (loadKit true
              (mkPreset (pretty 7000) "Live set" (mappings Scenario.mapped_session))
              (updateMapping 60 Audio.crash 5 Scenario.mapped_session))
  = mappings Scenario.mapped_session.
Proof.
  destruct (save_then_load "Live set" 7000 [] Scenario.mapped_session
              (updateMapping 60 Audio.crash 5 Scenario.mapped_session))
    as (_ & _ & _ & H); [discriminate |].
  apply (H (mkPreset (pretty 7000) "Live set" (mappings Scenario.mapped_session))).
  reflexivity.
Defined.

End MapperMore.


(** * Properties of the MIDI hook *)

Section HookFacts.
Import Hook.

(** X21.  The hook hands a message to the listeners exactly when its
    status byte is a note-on (144 to 159) and its velocity byte is above
    zero; the listeners then get the second and third byte as note and
    velocity.  Note-off messages, note-ons with velocity zero, messages
    without data and messages shorter than three bytes reach no
    listener. *)
Theorem hook_delivers_note_on (data : option (list Z)) (note velocity : Z) :
  handleMidiMessage data = Some (note, velocity) <->
  exists bytes command,
    data = Some bytes /\ bytes !! 0%nat = Some command /\
    bytes !! 1%nat = Some note /\ bytes !! 2%nat = Some velocity /\
    144 <= command <= 159 /\ 0 < velocity.
Proof.
  unfold handleMidiMessage. split.
  - destruct data as [bytes|]; [| discriminate].
    destruct (bytes !! 0%nat) as [command|] eqn:H0; [| discriminate].
    destruct (bytes !! 2%nat) as [vel|] eqn:H2; [| discriminate].
    destruct ((144 <=? command)%Z && (command <=? 159)%Z && (0 <? vel)%Z)%bool eqn:Hc;
      [| discriminate].
    destruct (bytes !! 1%nat) as [n|] eqn:H1; [| discriminate].
    intros [= <- <-]. exists bytes, command.
    apply andb_true_iff in Hc as [Hc Hv]. apply andb_true_iff in Hc as [Hlo Hhi].
    repeat split; auto; lia.
  - intros (bytes & command & -> & -> & -> & -> & [Hlo Hhi] & Hv).
    replace ((144 <=? command)%Z && (command <=? 159)%Z && (0 <? velocity)%Z)%bool with true;
      [reflexivity |].
    symmetry. rewrite !andb_true_iff. repeat split; lia.
Qed.

Lemma hook_delivers_note_on_witness :
  handleMidiMessage (Some [144; 38; 100]) = Some (38, 100) /\
  handleMidiMessage (Some [144; 38; 0]) <> Some (38, 0) /\
  handleMidiMessage (Some [128; 38; 64]) <> Some (38, 64).
Proof.
  split; [| split].
  - apply (hook_delivers_note_on (Some [144; 38; 100]) 38 100).
    exists [144; 38; 100], 144. repeat split; (reflexivity || lia).
  - intros H. apply (hook_delivers_note_on (Some [144; 38; 0]) 38 0) in H.
    destruct H as (bytes & command & _ & _ & _ & _ & _ & Hv). lia.
  - intros H. apply (hook_delivers_note_on (Some [128; 38; 64]) 38 64) in H.
    destruct H as (bytes & command & [= <-] & [= <-] & _ & _ & Hc & _). lia.
Defined.

Lemma removeListener_not_in (callback : nat) (listeners : list nat) :
  ~ In callback listeners -> removeListener callback listeners = listeners.
Proof.
  unfold removeListener. induction listeners as [|l rest IH]; intros Hnot; simpl.
  - reflexivity.
  - destruct (Nat.eqb l callback) eqn:He.
    + apply Nat.eqb_eq in He. exfalso. apply Hnot. left. exact He.
    + simpl. rewrite IH; [reflexivity |]. intros Hin. apply Hnot. right. exact Hin.
Qed.

(** X22.  Registering a listener and calling the function it got back
    restores the list of listeners when the callback was not registered
    before.  In general the removal takes out every registration of that
    callback, also earlier ones, and keeps every other listener in its
    place; and a delivered message calls each registered listener once
    per registration, in the order of registration. *)
Theorem listener_add_remove (callback : nat) (listeners : list nat) :
  (~ In callback listeners ->
   removeListener callback (addListener callback listeners) = listeners) /\
  removeListener callback (addListener callback listeners)
  = removeListener callback listeners /\
  ~ In callback (removeListener callback listeners) /\
  (forall other, other <> callback ->
     (In other (removeListener callback listeners) <-> In other listeners)) /\
  (forall data note velocity,
     handleMidiMessage data = Some (note, velocity) ->
     deliver data listeners = map (fun cb => (cb, note, velocity)) listeners).
Proof.
  assert (Hgen : removeListener callback (addListener callback listeners)
                 = removeListener callback listeners).
  { unfold removeListener, addListener. rewrite List.filter_app. simpl.
    rewrite Nat.eqb_refl. simpl. apply app_nil_r. }
  split; [| split; [exact Hgen | split; [| split]]].
  - intros Hnot. rewrite Hgen. apply removeListener_not_in, Hnot.
  - unfold removeListener. rewrite List.filter_In. intros [_ H].
    rewrite Nat.eqb_refl in H. discriminate.
  - intros other Hne. unfold removeListener. rewrite List.filter_In.
    split; [tauto |]. intros Hin. split; [exact Hin |].
    apply negb_true_iff, Nat.eqb_neq. exact Hne.
  - intros data note velocity Hd. unfold deliver. rewrite Hd. reflexivity.
Qed.

Lemma listener_add_remove_witness :
  removeListener 7 (addListener 7 [3; 5]%nat) = [3; 5]%nat /\
  (In 3%nat (removeListener 7 [3; 7; 5; 7]%nat) <-> In 3%nat [3; 7; 5; 7]%nat) /\
  deliver (Some [153; 36; 90]) [3; 5]%nat = [(3%nat, 36, 90); (5%nat, 36, 90)].
Proof.
  destruct (listener_add_remove 7 [3; 5]%nat) as (H1 & _ & _ & _ & H5).
  destruct (listener_add_remove 7 [3; 7; 5; 7]%nat) as (_ & _ & _ & H4 & _).
  split; [| split].
  - apply H1. simpl. intros [H | [H | []]]; discriminate.
  - apply H4. discriminate.
  - apply H5. reflexivity.
Defined.

Local Open Scope Q_scope.

(** X23.  The level of a MIDI velocity.  For the velocity bytes the hook
    delivers (1 to 127), [triggerSound] uses: the full level 1 for the
    velocity 1 (which is not above 1 and so is taken as a 0-1 value), the
    floor 1/10 for the velocities 2 to 12, and velocity/127 from 13 on. *)
Theorem midi_velocity_levels (velocity : Z) :
  (1 <= velocity <= 127)%Z ->
  (velocity = 1%Z -> Audio.normalizeVelocity (inject_Z velocity) = 1) /\
  ((2 <= velocity <= 12)%Z -> Audio.normalizeVelocity (inject_Z velocity) == 1 # 10) /\
  ((13 <= velocity)%Z ->
   Audio.normalizeVelocity (inject_Z velocity) == inject_Z velocity / 127).
Proof.
  intros [Hlo Hhi]. unfold Audio.normalizeVelocity. split; [| split].
  - intros ->. reflexivity.
  - intros [H2 H12].
    assert (Hg : Audio.gtb (inject_Z velocity) 1 = true)
      by (apply gtb_true; unfold Qlt; simpl; lia).
    rewrite Hg. apply clamp_below; unfold Qle; simpl; lia.
  - intros H13.
    assert (Hg : Audio.gtb (inject_Z velocity) 1 = true)
      by (apply gtb_true; unfold Qlt; simpl; lia).
    rewrite Hg. apply clamp_inside; unfold Qle; simpl; lia.
Qed.

Lemma midi_velocity_levels_witness :
  Audio.normalizeVelocity (inject_Z 1) = 1 /\
  Audio.normalizeVelocity (inject_Z 2) == 1 # 10 /\
  Audio.normalizeVelocity (inject_Z 100) == inject_Z 100 / 127.
Proof.
  destruct (midi_velocity_levels 1) as (H1 & _ & _); [lia |].
  destruct (midi_velocity_levels 2) as (_ & H2 & _); [lia |].
  destruct (midi_velocity_levels 100) as (_ & _ & H3); [lia |].
  split; [apply H1; reflexivity | split; [apply H2; lia | apply H3; lia]].
Defined.

End HookFacts.


(** * Properties of the grid editor *)

Section EditorFacts.
Import StepSeq Editor.

Lemma each_row_concat (rs : list SequenceRow) (i : nat) (g : list (list bool))
    (step : nat) :
  (i + length rs <= length g)%nat ->
  each_row i rs g step
  = Returned (concat (zip_with
       (fun row cells => if default false (cells !! step) then [row_call row] else [])
       rs (drop i g))).
Proof.
  revert i. induction rs as [|row rest IH]; intros i Hlen; [reflexivity |].
  simpl in Hlen. simpl each_row. unfold cell.
  destruct (lookup_lt_is_Some_2 g i) as [cells Hcells]; [lia |].
  rewrite Hcells. rewrite (drop_S g cells i Hcells). simpl zip_with.
  rewrite IH by lia. reflexivity.
Qed.

(** A tick is the concatenation of what the rows contribute. *)
Lemma tick_concat (t : Q) (step : nat) (st : SeqState) :
  length (rows st) = length (grid st) ->
  tick t step st = Returned (concat (per_row st step)).
Proof.
  intros Hlen. unfold tick, per_row. rewrite each_row_concat by lia. reflexivity.
Qed.

Lemma edit_step_lengths (st st' : SeqState) :
  edit_step st st' ->
  length (rows st) = length (grid st) -> length (rows st') = length (grid st').
Proof.
  intros Hstep Hlen. destruct Hstep as [r c st st' H | st | now st | b i st | i u st st' H].
  - unfold toggleStep in H. destruct (grid st !! r) as [cells|]; [| discriminate].
    destruct (cells !! c); [| discriminate]. injection H as <-. simpl.
    rewrite length_insert. exact Hlen.
  - simpl. now rewrite length_map.
  - simpl. rewrite !length_app. simpl. lia.
  - unfold deleteTrack. destruct b; [simpl | exact Hlen].
    rewrite !delete_take_drop, !length_app, !length_take, !length_drop. lia.
  - unfold updateRow in H. destruct (rows st !! i); [| discriminate].
    injection H as <-. simpl. rewrite length_insert. exact Hlen.
Qed.

Lemma load_state_lengths (saved : option SeqState) :
  length (rows (load_state saved)) = length (grid (load_state saved)).
Proof.
  unfold load_state. destruct saved as [parsed|]; [| reflexivity].
  destruct (Nat.eqb (length (rows parsed)) (length (grid parsed))) eqn:He.
  - apply Nat.eqb_eq. exact He.
  - reflexivity.
Qed.

Lemma row_call_returns (ast : Audio.AudioState) (tone_now : Q) (row : SequenceRow) :
  is_Some (Audio.defaultKit ast) ->
  returns (Audio.perform ast tone_now (row_call row)) = true.
Proof.
  intros [kit Hkit]. unfold Audio.perform, row_call. simpl.
  rewrite returns_triggerSound.
  destruct (row_instrument row); simpl;
    try apply returns_synth_shot;
    try (unfold Audio.with_kit; rewrite Hkit; reflexivity).
  reflexivity.
Qed.

Lemma perform_calls_returns (ast : Audio.AudioState) (tone_now : Q)
    (calls : list Audio.Dispatch) :
  Forall (fun d => returns (Audio.perform ast tone_now d) = true) calls ->
  returns (perform_calls ast tone_now calls) = true.
Proof.
  induction 1 as [|d rest Hd _ IH]; [reflexivity |].
  simpl. destruct (Audio.perform ast tone_now d); [| discriminate].
  destruct (perform_calls ast tone_now rest); [reflexivity | discriminate].
Qed.

Lemma per_row_row_calls (P : Audio.Dispatch -> Prop) (st : SeqState) (step : nat) :
  (forall row, P (row_call row)) -> Forall P (concat (per_row st step)).
Proof.
  intros HP. unfold per_row. generalize (grid st).
  induction (rows st) as [|row rest IH]; intros g; [constructor |].
  destruct g as [|cells g]; [constructor |]. simpl.
  destruct (default false (cells !! step)); simpl; [constructor; [apply HP |] |]; apply IH.
Qed.

(** X24.  The loop and the edits.  Whatever was saved, the initial state
    has one grid line per row, and every edit the interface can make
    (toggle a step, clear, add a track, delete a track, update a row)
    keeps it so.  Therefore in every state reached by edits the tick
    callback's own indexing of the grid never throws, the calls it makes
    are exactly the contributions of the rows, and once the default kit
    exists the whole callback, its [triggerSound] calls included, returns
    normally. *)
Theorem edits_keep_tick_safe (saved : option SeqState) (st : SeqState) :
  rtc edit_step (load_state saved) st ->
  length (rows st) = length (grid st) /\
  (forall t step, tick t step st = Returned (concat (per_row st step))) /\
  (forall ast tone_now t step,
     is_Some (Audio.defaultKit ast) ->
     returns (run_tick ast tone_now t step st) = true).
Proof.
  intros Hr.
  assert (Hlen : length (rows st) = length (grid st)).
  { revert st Hr. apply rtc_ind_r; [apply load_state_lengths |].
    intros y z _ Hstep IH. exact (edit_step_lengths y z Hstep IH). }
  split; [exact Hlen | split].
  - intros t step. apply tick_concat, Hlen.
  - intros ast tone_now t step Hkit. unfold run_tick.
    rewrite (tick_concat t step st Hlen).
    apply perform_calls_returns, per_row_row_calls.
    intros row. apply row_call_returns, Hkit.
Qed.

Lemma edits_keep_tick_safe_witness :
  returns (tick 0 3 (deleteTrack true 2 (addTrack 5 (clearGrid (load_state None))))) = true /\
  returns (run_tick Scenario.ready 0 0 3
             (deleteTrack true 2 (addTrack 5 (clearGrid (load_state None))))) = true.
Proof.
  destruct (edits_keep_tick_safe None
              (deleteTrack true 2 (addTrack 5 (clearGrid (load_state None)))))
    as (_ & H & Hrun).
  - eapply rtc_r; [eapply rtc_r; [eapply rtc_r; [apply rtc_refl |] |] |].
    + apply edit_clear.
    + apply (edit_add 5).
    + apply (edit_delete true 2).
  - split; [rewrite H; reflexivity |]. apply Hrun. vm_compute. eauto.
Defined.

(** Before the default kit exists, a tick with an active kit row throws
    in its first [triggerSound] call. *)
Example tick_before_init_throws :
  returns (run_tick Audio.initial 0 0 0 Scenario.four_on_the_floor) = false.
Proof. reflexivity. Qed.

(** A saved state with more rows than grid lines is what the length
    check guards against: its tick would throw. *)
Example mismatched_state_throws :
  returns (tick 0 0 (mkSeq DEFAULT_ROWS [])) = false.
Proof. reflexivity. Qed.

Lemma cell_insert (g : list (list bool)) (r c r' c' : nat) (cells : list bool) (b : bool) :
  g !! r = Some cells -> (c < length cells)%nat ->
  cell (<[r := <[c := b]> cells]> g) r' c'
  = if decide (r' = r /\ c' = c) then Some b else cell g r' c'.
Proof.
  intros Hr Hc. unfold cell.
  destruct (decide (r' = r)) as [-> | Hne].
  - rewrite list_lookup_insert_eq by (apply lookup_lt_is_Some; eauto).
    rewrite Hr. destruct (decide (c' = c)) as [-> | Hnc].
    + rewrite list_lookup_insert_eq by exact Hc.
      rewrite decide_True by auto. reflexivity.
    + rewrite list_lookup_insert_ne by congruence.
      rewrite decide_False by tauto. reflexivity.
  - rewrite list_lookup_insert_ne by congruence.
    rewrite decide_False by tauto. reflexivity.
Qed.

(** X25.  [toggleStep] on a cell of the grid negates that cell and no
    other, keeps the rows, and is its own inverse: toggling the same cell
    again gives the state back.  A row index outside the grid throws. *)
Theorem toggleStep_flips (r c : nat) (st st' : SeqState) :
  toggleStep r c st = Done st' ->
  rows st' = rows st /\
  cell (grid st') r c = negb <$> cell (grid st) r c /\
  (forall r' c', ~ (r' = r /\ c' = c) -> cell (grid st') r' c' = cell (grid st) r' c') /\
  toggleStep r c st' = Done st.
Proof.
  unfold toggleStep. destruct (grid st !! r) as [cells|] eqn:Hr; [| discriminate].
  destruct (cells !! c) as [on|] eqn:Hc; [| discriminate].
  intros [= <-]. simpl.
  assert (Hlt : (c < length cells)%nat) by (apply lookup_lt_is_Some; eauto).
  assert (Hrlt : (r < length (grid st))%nat) by (apply lookup_lt_is_Some; eauto).
  split; [reflexivity | split; [| split]].
  - rewrite (cell_insert _ r c r c cells _ Hr Hlt), decide_True by auto.
    unfold cell. rewrite Hr, Hc. reflexivity.
  - intros r' c' Hne.
    rewrite (cell_insert _ r c r' c' cells _ Hr Hlt), decide_False by exact Hne.
    reflexivity.
  - rewrite list_lookup_insert_eq by exact Hrlt.
    rewrite list_lookup_insert_eq by exact Hlt.
    rewrite list_insert_insert_eq, negb_involutive.
    rewrite list_insert_insert_eq.
    rewrite (list_insert_id cells c on Hc), (list_insert_id (grid st) r cells Hr).
    destruct st; reflexivity.
Qed.

Lemma toggleStep_flips_witness :
  exists st',
    toggleStep 0 4 Scenario.four_on_the_floor = Done st' /\
    cell (grid st') 0 4 = Some false /\
    cell (grid st') 0 8 = Some true /\
    toggleStep 0 4 st' = Done Scenario.four_on_the_floor /\
    toggleStep 20 4 Scenario.four_on_the_floor = Throws.
Proof.
  eexists. split; [reflexivity |].
  destruct (toggleStep_flips 0 4 Scenario.four_on_the_floor _ eq_refl)
    as (_ & Hflip & Hother & Hback).
  split; [rewrite Hflip; reflexivity | split; [| split; [exact Hback | reflexivity]]].
  rewrite Hother; [reflexivity |]. intros [_ H]. discriminate.
Defined.

Lemma per_row_lookup (st : SeqState) (step i : nat) :
  per_row st step !! i
  = match rows st !! i, grid st !! i with
    | Some row, Some cells =>
        Some (if default false (cells !! step) then [row_call row] else [])
    | _, _ => None
    end.
Proof.
  unfold per_row. rewrite lookup_zip_with.
  destruct (rows st !! i); [| reflexivity]. simpl.
  destruct (grid st !! i); reflexivity.
Qed.

(** X26.  What a toggle does to the loop.  After a step of a row has been
    toggled, the ticks of every other step dispatch what they did before;
    at the toggled step the row contributes its call if the cell was off
    and nothing if it was on, and every other row contributes what it did
    before. *)
Theorem toggleStep_tick (r c : nat) (st st' : SeqState) (row : SequenceRow) (on : bool) :
  length (rows st) = length (grid st) ->
  toggleStep r c st = Done st' ->
  rows st !! r = Some row -> cell (grid st) r c = Some on ->
  (forall t step, step <> c -> tick t step st' = tick t step st) /\
  (forall t, tick t c st' = Returned (concat (per_row st' c))) /\
  per_row st' c !! r = Some (if on then [] else [row_call row]) /\
  (forall i, i <> r -> per_row st' c !! i = per_row st c !! i).
Proof.
  intros Hlen Hdone Hrow Hon.
  assert (Hlen' : length (rows st') = length (grid st'))
    by (apply (edit_step_lengths st st'); [eapply edit_toggle; exact Hdone | exact Hlen]).
  unfold toggleStep in Hdone.
  destruct (grid st !! r) as [cells|] eqn:Hr; [| discriminate].
  destruct (cells !! c) as [on'|] eqn:Hc; [| discriminate].
  injection Hdone as <-.
  assert (Hlt : (c < length cells)%nat) by (apply lookup_lt_is_Some; eauto).
  assert (Hrlt : (r < length (grid st))%nat) by (apply lookup_lt_is_Some; eauto).
  assert (Hon' : on' = on).
  { unfold cell in Hon. rewrite Hr, Hc in Hon. simpl in Hon. congruence. }
  subst on'.
  assert (Hper : forall step i,
             (step <> c \/ i <> r) ->
             per_row (mkSeq (rows st) (<[r := <[c := negb on]> cells]> (grid st))) step !! i
             = per_row st step !! i).
  { intros step i Hd. rewrite !per_row_lookup. simpl.
    destruct (decide (i = r)) as [-> | Hne].
    - rewrite list_lookup_insert_eq by exact Hrlt. rewrite Hr.
      destruct Hd as [Hd | Hd]; [| contradiction].
      rewrite list_lookup_insert_ne by congruence. reflexivity.
    - rewrite list_lookup_insert_ne by congruence. reflexivity. }
  split; [| split; [| split]].
  - intros t step Hne. rewrite !tick_concat by assumption.
    f_equal. f_equal. apply list_eq. intros i. apply Hper. left. exact Hne.
  - intros t. apply tick_concat. exact Hlen'.
  - rewrite per_row_lookup. simpl. rewrite Hrow.
    rewrite list_lookup_insert_eq by exact Hrlt.
    rewrite list_lookup_insert_eq by exact Hlt. simpl.
    destruct on; reflexivity.
  - intros i Hne. apply Hper. right. exact Hne.
Qed.

Lemma toggleStep_tick_witness :
  exists st',
    toggleStep 1 2 Scenario.four_on_the_floor = Done st' /\
    tick 0 4 st' = tick 0 4 Scenario.four_on_the_floor /\
    per_row st' 2 !! 1%nat
    = Some [row_call (mkRow "snare" "Snare" Audio.snare "snare" None)].
Proof.
  eexists. split; [reflexivity |].
  destruct (toggleStep_tick 1 2 Scenario.four_on_the_floor _
              (mkRow "snare" "Snare" Audio.snare "snare" None) false
              eq_refl eq_refl eq_refl eq_refl) as (Hother & _ & Hrow & _).
  split; [apply Hother; discriminate | exact Hrow].
Defined.

Lemma off_line (step : nat) : default false (repeat false STEPS !! step) = false.
Proof.
  destruct (repeat false STEPS !! step) as [b|] eqn:Hb; [| reflexivity].
  simpl. apply repeat_spec with (n := STEPS). apply list_elem_of_In.
  apply list_elem_of_lookup. eauto.
Qed.

Lemma silent_lines (line : list bool) (rs : list SequenceRow) (step : nat) :
  default false (line !! step) = false ->
  concat (zip_with
            (fun row cells => if default false (cells !! step) then [row_call row] else [])
            rs (map (fun _ => line) rs)) = [].
Proof.
  intros Hoff. induction rs as [|row rest IH]; [reflexivity |].
  simpl. rewrite Hoff. exact IH.
Qed.

Lemma per_row_clear (st : SeqState) (step : nat) :
  concat (per_row (clearGrid st) step) = [].
Proof.
  unfold per_row, clearGrid. apply silent_lines, off_line.
Qed.

(** X27.  After [clearGrid] the loop is silent: whatever the state was,
    the grid has one line per row again and the tick of every step
    dispatches nothing. *)
Theorem clearGrid_silences (st : SeqState) (t : Q) (step : nat) :
  length (rows (clearGrid st)) = length (grid (clearGrid st)) /\
  rows (clearGrid st) = rows st /\
  tick t step (clearGrid st) = Returned [].
Proof.
  assert (Hlen : length (rows (clearGrid st)) = length (grid (clearGrid st)))
    by (simpl; now rewrite length_map).
  split; [exact Hlen | split; [reflexivity |]].
  rewrite tick_concat by exact Hlen. now rewrite per_row_clear.
Qed.

(** X28.  Adding a track does not change what the loop plays: the new
    row is a kick row with every step off, appended after the others, and
    the tick of every step dispatches what it did before. *)
Theorem addTrack_is_silent (now : Z) (st : SeqState) (t : Q) (step : nat) :
  length (rows st) = length (grid st) ->
  tick t step (addTrack now st) = tick t step st /\
  rows (addTrack now st)
  = (rows st ++ [mkRow (pretty now) "New Track" Audio.kick "kick" None])%list.
Proof.
  intros Hlen. split; [| reflexivity].
  assert (Hlen' : length (rows (addTrack now st)) = length (grid (addTrack now st)))
    by (apply (edit_step_lengths st); [apply edit_add | exact Hlen]).
  rewrite !tick_concat by assumption. f_equal.
  unfold per_row, addTrack. simpl.
  rewrite zip_with_app by exact Hlen. rewrite concat_app.
  change (zip_with _ [?r] [?l]) with [if default false (l !! step) then [row_call r] else []].
  rewrite off_line. simpl. now rewrite app_nil_r.
Qed.

Lemma addTrack_is_silent_witness :
  tick 0 4 (addTrack 77 Scenario.four_on_the_floor) = tick 0 4 Scenario.four_on_the_floor.
Proof.
  apply (addTrack_is_silent 77 Scenario.four_on_the_floor 0 4). reflexivity.
Defined.

Lemma zip_with_delete {A B C} (f : A -> B -> C) (i : nat) (l : list A) (k : list B) :
  zip_with f (delete i l) (delete i k) = delete i (zip_with f l k).
Proof.
  revert i k. induction l as [|x l IH]; intros i k.
  - destruct i; reflexivity.
  - destruct k as [|y k].
    + destruct i; simpl; [destruct l; reflexivity | reflexivity].
    + destruct i; simpl; [reflexivity |]. now rewrite IH.
Qed.

(** X29.  Deleting a track removes that row's contribution from every
    tick and nothing else: what the remaining rows contribute, and their
    order, is unchanged.  A declined confirmation, or an index past the
    last row, changes nothing. *)
Theorem deleteTrack_tick (index : nat) (st : SeqState) (t : Q) (step : nat) :
  length (rows st) = length (grid st) ->
  tick t step (deleteTrack true index st)
  = Returned (concat (delete index (per_row st step))) /\
  tick t step st = Returned (concat (per_row st step)) /\
  deleteTrack false index st = st /\
  ((length (rows st) <= index)%nat -> deleteTrack true index st = st).
Proof.
  intros Hlen.
  assert (Hlen' : length (rows (deleteTrack true index st))
                  = length (grid (deleteTrack true index st)))
    by (apply (edit_step_lengths st); [apply edit_delete | exact Hlen]).
  split; [| split; [apply tick_concat, Hlen | split; [reflexivity |]]].
  - rewrite tick_concat by exact Hlen'. unfold per_row, deleteTrack. simpl.
    now rewrite zip_with_delete.
  - intros Hge. unfold deleteTrack.
    rewrite !delete_take_drop, !take_ge, !drop_ge, !app_nil_r by lia.
    destruct st; reflexivity.
Qed.

Lemma deleteTrack_tick_witness :
  tick 0 4 (deleteTrack true 0 Scenario.four_on_the_floor) = Returned [] /\
  deleteTrack true 9 Scenario.four_on_the_floor = Scenario.four_on_the_floor.
Proof.
  destruct (deleteTrack_tick 0 Scenario.four_on_the_floor 0 4 eq_refl) as (H & _).
  destruct (deleteTrack_tick 9 Scenario.four_on_the_floor 0 4 eq_refl) as (_ & _ & _ & H').
  split; [rewrite H; reflexivity | apply H'; simpl; lia].
Defined.

End EditorFacts.
